(** * Voice-Controlled-Lab: the command matcher, the dispatcher and the
      control loop of [voice_controller.py], embedded and verified.

    Python text is modelled as a sequence of characters whose code points
    lie below 256 (ASCII and the Latin-1 block): on that range
    [str.lower] works character by character and stays inside the range,
    and the class [\w] of the [re] module is given by a finite table. *)

From Stdlib Require Import String Ascii List Bool Arith NArith ZArith QArith Lia.
Import ListNotations.

Local Close Scope Q_scope.
Local Open Scope string_scope.

(* ------------------------------------------------------------------ *)
(** ** Text: characters, [str.lower], the [in] operator on strings     *)
(* ------------------------------------------------------------------ *)

Module Text.

(** A Python [str], as the list of its characters. *)
Definition text := list ascii.

Definition str (s : string) : text := list_ascii_of_string s.
Definition unstr (t : text) : string := string_of_list_ascii t.

Definition code (c : ascii) : N := N_of_ascii c.

Definition between (lo hi n : N) : bool := ((lo <=? n) && (n <=? hi))%N.

(** [c.lower()] for one character: A-Z, and the Latin-1 capitals
    U+00C0..U+00DE without the multiplication sign U+00D7. *)
Definition lower_char (c : ascii) : ascii :=
  let n := code c in
  if between 65 90 n
     || (between 192 222 n && negb (n =? 215)%N)
  then ascii_of_N (n + 32)
  else c.

(** [text.lower()] *)
Definition lower (t : text) : text := map lower_char t.

(** The class [\w] of [re] on [str] patterns: alphanumeric or underscore. *)
Definition is_word (c : ascii) : bool :=
  let n := code c in
  between 48 57 n || between 65 90 n || between 97 122 n || (n =? 95)%N
  || (n =? 170)%N || (n =? 178)%N || (n =? 179)%N || (n =? 181)%N
  || (n =? 185)%N || (n =? 186)%N || between 188 190 n
  || between 192 214 n || between 216 246 n || between 248 255 n.

Definition newline : ascii := ascii_of_N 10.

Definition ascii_eqb (a b : ascii) : bool := Ascii.eqb a b.

(** [t.startswith(p)] *)
Fixpoint starts_with (p t : text) : bool :=
  match p, t with
  | [], _ => true
  | _ :: _, [] => false
  | a :: p', b :: t' => ascii_eqb a b && starts_with p' t'
  end.

(** [p in t]: [p] occurs as a contiguous run of characters of [t]. *)
Fixpoint contains (p t : text) : bool :=
  starts_with p t
  || match t with
     | [] => false
     | _ :: t' => contains p t'
     end.

(** Truthiness of a string: empty is false. *)
Definition truthy (t : text) : bool :=
  match t with [] => false | _ :: _ => true end.

End Text.

(* ------------------------------------------------------------------ *)
(** ** The fragment of [re] the controller uses                          *)
(* ------------------------------------------------------------------ *)

Module Regex.
Import Text.

(** Patterns built from literals, [.*], [\b], alternation, sequence. *)
Inductive regex : Type :=
| Lit (l : text)
| DotStar
| WordB
| Alt (a b : regex)
| Cat (a b : regex).

(** A position in the subject: the character before it, if any, and
    the characters from it on. *)
Definition word_before (prev : option ascii) : bool :=
  match prev with Some c => is_word c | None => false end.

Definition word_after (rest : text) : bool :=
  match rest with c :: _ => is_word c | [] => false end.

(** [\b]: exactly one side of the position is a word character. *)
Definition at_boundary (prev : option ascii) (rest : text) : bool :=
  xorb (word_before prev) (word_after rest).

Fixpoint lit_k (l : text) (prev : option ascii) (rest : text)
         (k : option ascii -> text -> bool) : bool :=
  match l with
  | [] => k prev rest
  | a :: l' =>
      match rest with
      | [] => false
      | c :: rest' => ascii_eqb a c && lit_k l' (Some c) rest' k
      end
  end.

(** [.*] is greedy: the longer run is tried first; [.] refuses the
    newline. *)
Fixpoint dotstar_k (prev : option ascii) (rest : text)
         (k : option ascii -> text -> bool) : bool :=
  match rest with
  | [] => k prev rest
  | c :: rest' =>
      (negb (ascii_eqb c newline) && dotstar_k (Some c) rest' k)
      || k prev rest
  end.

(** Backtracking matcher in continuation style: does [r] match at the
    position and leave a position the continuation accepts? *)
Fixpoint match_k (r : regex) (prev : option ascii) (rest : text)
         (k : option ascii -> text -> bool) : bool :=
  match r with
  | Lit l => lit_k l prev rest k
  | DotStar => dotstar_k prev rest k
  | WordB => at_boundary prev rest && k prev rest
  | Alt a b => match_k a prev rest k || match_k b prev rest k
  | Cat a b => match_k a prev rest (fun p s => match_k b p s k)
  end.

Definition accept (_ : option ascii) (_ : text) : bool := true.

Fixpoint search_from (r : regex) (prev : option ascii) (rest : text) : bool :=
  match_k r prev rest accept
  || match rest with
     | [] => false
     | c :: rest' => search_from r (Some c) rest'
     end.

(** Truthiness of [re.search(r, t)]: a match exists at some position. *)
Definition search (r : regex) (t : text) : bool := search_from r None t.

(** The pattern [\b(turn|switch) .* all .* W\b]. *)
Definition all_pattern (w : string) : regex :=
  Cat WordB
    (Cat (Alt (Lit (str "turn")) (Lit (str "switch")))
       (Cat (Lit (str " "))
          (Cat DotStar
             (Cat (Lit (str " all "))
                (Cat DotStar
                   (Cat (Lit (str (" " ++ w))) WordB)))))).

(** Declarative reading: [r] takes position [(p, s)] to [(p', s')]. *)
Inductive steps : regex -> option ascii -> text -> option ascii -> text -> Prop :=
| st_lit_nil p s : steps (Lit []) p s p s
| st_lit_cons a l p s p' s' :
    steps (Lit l) (Some a) s p' s' ->
    steps (Lit (a :: l)) p (a :: s) p' s'
| st_dot_nil p s : steps DotStar p s p s
| st_dot_cons c p s p' s' :
    c <> newline ->
    steps DotStar (Some c) s p' s' ->
    steps DotStar p (c :: s) p' s'
| st_wordb p s : at_boundary p s = true -> steps WordB p s p s
| st_alt_l a b p s p' s' : steps a p s p' s' -> steps (Alt a b) p s p' s'
| st_alt_r a b p s p' s' : steps b p s p' s' -> steps (Alt a b) p s p' s'
| st_cat a b p s p1 s1 p' s' :
    steps a p s p1 s1 -> steps b p1 s1 p' s' -> steps (Cat a b) p s p' s'.

End Regex.

(* ------------------------------------------------------------------ *)
(** ** The command matcher                                               *)
(* ------------------------------------------------------------------ *)

Module Matcher.
Import Text Regex.

(** [self.command_map]: the dict in insertion order, which is the
    order [items()] walks it in. *)
Definition command_map : list (list string * string) :=
  [ (["turn everything on"; "turn all on"; "all on"], "all/on");
    (["turn everything off"; "turn all off"; "all off"], "all/off");
    (["led on"; "turn on led"; "turn led on"], "led/on");
    (["led off"; "turn off led"; "turn led off"], "led/off");
    (["light on"; "turn on light"; "turn light on"], "light/on");
    (["light off"; "turn off light"; "turn light off"], "light/off");
    (["fan on"; "turn on fan"], "fan/on");
    (["fan off"; "turn off fan"], "fan/off") ].

(** The inner loop [for p in phrases: if p in text: return endpoint]:
    does some phrase of the entry occur in the text? *)
Definition entry_hits (t : text) (phrases : list string) : bool :=
  existsb (fun p => contains (str p) t) phrases.

(** The outer loop over the table: the first entry that hits. *)
Fixpoint table_lookup (table : list (list string * string)) (t : text)
  : option string :=
  match table with
  | [] => None
  | (phrases, endpoint) :: table' =>
      if entry_hits t phrases then Some endpoint else table_lookup table' t
  end.

Definition fallback (t : text) : option string :=
  if search (all_pattern "on") t then Some "all/on"
  else if search (all_pattern "off") t then Some "all/off"
  else None.

(** [VoiceController._match_command], on the characters of the text. *)
Definition match_text (t0 : text) : option string :=
  let t := lower t0 in
  match table_lookup command_map t with
  | Some endpoint => Some endpoint
  | None => fallback t
  end.

Definition _match_command (text : string) : option string :=
  match_text (str text).

End Matcher.

(* ------------------------------------------------------------------ *)
(** ** The controller: state, environment, effects                       *)
(* ------------------------------------------------------------------ *)

Module Controller.
Import Text Matcher.

(** Exceptions the code names in its [except] clauses, and the rest. *)
Inductive exn : Type :=
| UnknownValueError                    (* sr.UnknownValueError *)
| RecognizerRequestError (detail : string)   (* sr.RequestError *)
| ConnectionError (detail : string)    (* requests.ConnectionError *)
| Timeout (detail : string)            (* requests.Timeout *)
| RetryError (detail : string)         (* requests.exceptions.RetryError *)
| HTTPError (status : Z)               (* raised by raise_for_status *)
| OtherError (detail : string).        (* any exception of another class *)

(** [isinstance(exc, requests.RequestException)] *)
Definition is_RequestException (e : exn) : bool :=
  match e with
  | ConnectionError _ | Timeout _ | RetryError _ | HTTPError _ => true
  | UnknownValueError | RecognizerRequestError _ | OtherError _ => false
  end.

Inductive level : Type := DEBUG | INFO | WARNING | ERROR.

(** An argument of a logging call. *)
Inductive arg : Type :=
| AStr (s : string)
| AInt (z : Z)
| ASecs (q : Q)
| AExn (e : exn).

(** What the controller does to the outside, in the order it does it. *)
Inductive event : Type :=
| Log (lvl : level) (fmt : string) (args : list arg)
| Calibrate (duration : Q)   (* recognizer.adjust_for_ambient_noise *)
| Listen                     (* recognizer.listen(source) *)
| Recognize                  (* recognizer.recognize_google(audio) *)
| Sleep (secs : Q)           (* time.sleep *)
| Match (text : string)      (* a call of _match_command *)
| Send (path : string)       (* a call of send_command *)
| Get (url : string) (timeout : Q)   (* session.get(url, timeout=...) *)
| Interrupt.                 (* the SIGINT handler runs controller.stop() *)

Definition DEFAULT_ESP32_IP : string := "192.168.0.172".
Definition DEFAULT_AMBIENT_DURATION : Q := 2 # 1.
Definition DEFAULT_TIMEOUT : Q := 5 # 1.
Definition DEFAULT_PAUSE : Q := 1 # 10.

(** The outside world, indexed by the number of blocking calls made so
    far: what the recognizer will answer, what the device will answer,
    and whether SIGINT arrives while the call blocks. *)
Record env : Type := {
  heard : nat -> exn + string;
  replies : nat -> exn + Z;
  sigint : nat -> bool
}.

Record world : Type := {
  esp32_ip : string;     (* self.esp32_ip *)
  running : bool;        (* self.running *)
  trace : list event;    (* newest first *)
  clock : nat;
  outside : env
}.

(** [VoiceController.__init__] *)
Definition init (ip : string) (e : env) : world :=
  {| esp32_ip := ip; running := true; trace := []; clock := 0; outside := e |}.

(** Computations that read and change the world and may raise. *)
Definition M (A : Type) : Type := world -> (exn + A) * world.

Definition ret {A} (a : A) : M A := fun w => (inr a, w).

Definition bind {A B} (m : M A) (f : A -> M B) : M B :=
  fun w =>
    match m w with
    | (inl e, w') => (inl e, w')
    | (inr a, w') => f a w'
    end.

Definition raise {A} (e : exn) : M A := fun w => (inl e, w).

(** [try: m  except ...: h exc]; the handler re-raises what it does not
    catch. *)
Definition try_except {A} (m : M A) (h : exn -> M A) : M A :=
  fun w =>
    match m w with
    | (inl e, w') => h e w'
    | (inr a, w') => (inr a, w')
    end.

Declare Scope ctl_scope.
Delimit Scope ctl_scope with ctl.
Notation "x <- m ;; k" := (bind m (fun x => k))
  (at level 100, m at next level, right associativity) : ctl_scope.
Notation "m ;; k" := (bind m (fun _ => k))
  (at level 100, right associativity) : ctl_scope.
Local Open Scope ctl_scope.

Definition emit (ev : event) : M unit :=
  fun w =>
    (inr tt,
     {| esp32_ip := esp32_ip w; running := running w;
        trace := ev :: trace w; clock := clock w; outside := outside w |}).

Definition logging (lvl : level) (fmt : string) (args : list arg) : M unit :=
  emit (Log lvl fmt args).

Definition set_running (b : bool) : M unit :=
  fun w =>
    (inr tt,
     {| esp32_ip := esp32_ip w; running := b;
        trace := trace w; clock := clock w; outside := outside w |}).

Definition tick : M nat :=
  fun w =>
    (inr (clock w),
     {| esp32_ip := esp32_ip w; running := running w;
        trace := trace w; clock := S (clock w); outside := outside w |}).

Definition ask {A} (f : world -> A) : M A := fun w => (inr (f w), w).

(** [VoiceController.stop] *)
Definition stop : M unit :=
  logging INFO "Shutting down" [] ;;
  set_running false.

(** A call that blocks: it is recorded, and a SIGINT that arrives while
    it blocks runs the handler of [main], which calls [stop]. The
    result is the index of the call. *)
Definition blocking (ev : event) : M nat :=
  emit ev ;;
  n <- tick ;;
  pending <- ask (fun w => sigint (outside w) n) ;;
  (if pending then (emit Interrupt ;; stop) else ret tt) ;;
  ret n.

Definition sleep (secs : Q) : M unit :=
  blocking (Sleep secs) ;; ret tt.

(** [self.session.get(url, timeout=DEFAULT_TIMEOUT)]: a status code, or
    an exception. *)
Definition session_get (url : string) : M Z :=
  n <- blocking (Get url DEFAULT_TIMEOUT) ;;
  r <- ask (fun w => replies (outside w) n) ;;
  match r with
  | inl e => raise e
  | inr status => ret status
  end.

(** [resp.raise_for_status()]: raises on 4xx and 5xx. *)
Definition raise_for_status (status : Z) : M unit :=
  if ((400 <=? status) && (status <? 600))%Z
  then raise (HTTPError status)
  else ret tt.

(** [VoiceController.send_command] *)
Definition send_command (path : string) : M bool :=
  emit (Send path) ;;
  ip <- ask esp32_ip ;;
  let url := "http://" ++ ip ++ "/" ++ path in
  try_except
    (logging DEBUG "Sending request to %s" [AStr url] ;;
     status <- session_get url ;;
     raise_for_status status ;;
     logging INFO "Command sent: %s (status=%s)" [AStr path; AInt status] ;;
     ret true)
    (fun exc =>
       if is_RequestException exc
       then (logging WARNING "Failed to send command %s: %s"
               [AStr path; AExn exc] ;;
             ret false)
       else raise exc).

(** [VoiceController.adjust_ambient]. The microphone is taken to
    open and to deliver: the calibration call raises nothing here. *)
Definition adjust_ambient (duration : Q) : M unit :=
  logging INFO "Calibrating microphone (%.1fs)..." [ASecs duration] ;;
  blocking (Calibrate duration) ;;
  ret tt.

(** [self.recognizer.recognize_google(audio)] *)
Definition recognize_google : M string :=
  n <- blocking Recognize ;;
  r <- ask (fun w => heard (outside w) n) ;;
  match r with
  | inl e => raise e
  | inr text => ret text
  end.

Definition lower_str (s : string) : string := unstr (lower (str s)).

(** The [try] statement of [listen_once]. *)
Definition recognize : M (option string) :=
  try_except
    (text <- recognize_google ;;
     logging INFO "Heard: %s" [AStr text] ;;
     ret (Some (lower_str text)))
    (fun exc =>
       match exc with
       | UnknownValueError =>
           logging DEBUG "Couldn't understand that" [] ;;
           ret None
       | RecognizerRequestError _ =>
           logging ERROR "Speech recognition service error: %s" [AExn exc] ;;
           ret None
       | _ => raise exc
       end).

(** [VoiceController.listen_once]. The microphone is taken to open
    and to deliver: [listen] raises nothing here, the recognition
    may. *)
Definition listen_once : M (option string) :=
  blocking Listen ;;
  recognize.

(** [not x] for an optional string: [None] and the empty string. *)
Definition falsy (x : option string) : bool :=
  match x with
  | None => true
  | Some s => negb (truthy (str s))
  end.

(** [for e in es: self.send_command(e); time.sleep(0.1)] *)
Fixpoint send_each (es : list string) : M unit :=
  match es with
  | [] => ret tt
  | e :: es' => send_command e ;; sleep (1 # 10) ;; send_each es'
  end.

Definition all_on_members : list string :=
  ["led/on"; "light/on"; "projector/on"; "fan/on"].

Definition all_off_members : list string :=
  ["led/off"; "light/off"; "projector/off"; "fan/off"].

(** The [if endpoint == ... elif ... else] at the end of the loop body. *)
Definition dispatch (endpoint : string) : M unit :=
  if (endpoint =? "all/on")%string then
    logging INFO "Activating all devices" [] ;;
    send_each all_on_members
  else if (endpoint =? "all/off")%string then
    logging INFO "Deactivating all devices" [] ;;
    send_each all_off_members
  else
    send_command endpoint ;; ret tt.

(** The body of the loop once [listen_once] has answered. *)
Definition act (pause : Q) (text : option string) : M unit :=
  if falsy text then sleep pause
  else
    let text := match text with Some s => s | None => "" end in
    emit (Match text) ;;
    let endpoint := _match_command text in
    if falsy endpoint then ret tt
    else dispatch (match endpoint with Some e => e | None => "" end).

(** One pass through the body of [while self.running]. *)
Definition cycle (pause : Q) : M unit :=
  text <- listen_once ;;
  act pause text.

(** [while self.running: ...], for at most [fuel] passes. The result
    tells whether the loop was left ([true]) or is still going. *)
Fixpoint loop (fuel : nat) (pause : Q) : M bool :=
  match fuel with
  | 0 => ret false
  | S fuel' =>
      go <- ask running ;;
      if go then (cycle pause ;; loop fuel' pause) else ret true
  end.

(** [VoiceController.run] *)
Definition run (fuel : nat) (ambient_duration pause : Q) : M bool :=
  ip <- ask esp32_ip ;;
  logging INFO "Starting voice controller (ESP32=%s)" [AStr ip] ;;
  adjust_ambient ambient_duration ;;
  logging INFO "Ready - speak a command (Ctrl-C to exit)" [] ;;
  loop fuel pause.

(** Projections of a run of events. *)
Definition gets (tr : list event) : list string :=
  flat_map (fun ev => match ev with Get u _ => [u] | _ => [] end) tr.

Definition is_call (ev : event) : bool :=
  match ev with Send _ | Sleep _ => true | _ => false end.

Definition calls (tr : list event) : list event := filter is_call tr.

End Controller.

(* ------------------------------------------------------------------ *)
(** ** Vocabulary of the statements                                      *)
(* ------------------------------------------------------------------ *)

Module Props.
Import Text Regex Matcher Controller.
Local Open Scope list_scope.

(** [p] occurs in [t] as a contiguous run. *)
Definition occurs (p t : text) : Prop :=
  exists pre post, t = pre ++ p ++ post.

(** The character before the position reached after reading [l]. *)
Definition after (prev : option ascii) (l : text) : option ascii :=
  fold_left (fun _ c => Some c) l prev.

Definition no_newline (f : text) : Prop := Forall (fun c => c <> newline) f.

(** What [\b(turn|switch) .* all .* W\b] finds in [t]: the verb, not
    preceded by a word character; a space, a run [f1], and the
    characters [ all ] with their two spaces; a run [f2], a space
    and [W], not followed by a word character. *)
Definition pattern_shape (w : string) (t : text) : Prop :=
  exists pre verb f1 f2 post,
    t = pre ++ verb ++ str " " ++ f1 ++ str " all " ++ f2
            ++ str (" " ++ w)%string ++ post
    /\ (verb = str "turn" \/ verb = str "switch")
    /\ no_newline f1 /\ no_newline f2
    /\ word_before (after None pre) = false
    /\ word_after post = false.

(** Words joined by single spaces. *)
Fixpoint unwords (ws : list string) : string :=
  match ws with
  | [] => ""
  | [w] => w
  | w :: ws' => (w ++ " " ++ unwords ws')%string
  end.

(** The shape as the specification words it: a verb, filler words
    (possibly none), [all], filler words (possibly none), then [W]. *)
Definition worded_shape (w : string) (utterance : string) : Prop :=
  exists verb fill1 fill2,
    (verb = "turn" \/ verb = "switch")
    /\ utterance = unwords ([verb] ++ fill1 ++ ["all"] ++ fill2 ++ [w]).

(** No phrase of the table occurs in the text. *)
Definition phrase_free (t : text) : Prop :=
  forall phrases endpoint p,
    In (phrases, endpoint) command_map -> In p phrases ->
    ~ occurs (str p) t.

(** Some phrase of the entry occurs in the text. *)
Definition hits (t : text) (e : list string * string) : Prop :=
  exists p, In p (fst e) /\ occurs (str p) t.

(** The entry at index [i] is the first of the table that hits. *)
Definition earliest (t : text) (i : nat) (e : list string * string) : Prop :=
  nth_error command_map i = Some e
  /\ hits t e
  /\ forall k ek, k < i -> nth_error command_map k = Some ek -> ~ hits t ek.

(** The filler words of an utterance hold no line break. *)
Definition plain_words (ws : list string) : Prop :=
  Forall (fun f => no_newline (str f)) ws.

(** The transport keeps the contract of [requests]: whatever
    [session.get] raises is a [RequestException]. *)
Definition polite (e : env) : Prop :=
  forall n exc, replies e n = inl exc -> is_RequestException exc = true.

(** [w'] continues [w]: same controller, same outside, later clock,
    events [evs] added (newest first), each satisfying [P]; the run
    flag never goes back up, and it is down once the handler ran. *)
Definition continues (P : event -> Prop) (w w' : world) : Prop :=
  esp32_ip w' = esp32_ip w
  /\ outside w' = outside w
  /\ clock w <= clock w'
  /\ (running w = false -> running w' = false)
  /\ exists evs,
       trace w' = evs ++ trace w
       /\ Forall P evs
       /\ (In Interrupt evs -> running w' = false).

(** Every run of [m] continues the world it starts from. *)
Definition keeps {A} (P : event -> Prop) (m : M A) : Prop :=
  forall w, continues P w (snd (m w)).

(** [P] allows what any blocking call may add: the handler and logs. *)
Definition calm (P : event -> Prop) : Prop :=
  P Interrupt /\ forall lvl fmt args, P (Log lvl fmt args).

(** [P] allows the dispatcher to be called on [path]. *)
Definition allows_send (P : event -> Prop) (path : string) : Prop :=
  P (Send path) /\ forall url timeout, P (Get url timeout).

(** [P] allows all that the loop body does after listening. *)
Definition allows_acting (P : event -> Prop) : Prop :=
  calm P
  /\ (forall secs, P (Sleep secs))
  /\ (forall s, s <> "" -> P (Match s))
  /\ (forall path, path <> "all/on" -> path <> "all/off" -> allows_send P path).

(** In a run of events, newest first, nothing listens after the
    handler ran. *)
Definition settled (evs : list event) : Prop :=
  forall later earlier,
    evs = later ++ Interrupt :: earlier -> ~ In Listen later.

(** The values the matcher can return. *)
Definition matcher_endpoints : list string :=
  ["all/on"; "all/off"; "led/on"; "led/off";
   "light/on"; "light/off"; "fan/on"; "fan/off"].


Definition not_listen (ev : event) : Prop := ev <> Listen.

Definition not_empty_match (ev : event) : Prop := ev <> Match "".

(** Neither the matcher nor the dispatcher is involved. *)
Definition quiet (ev : event) : Prop :=
  match ev with
  | Match _ | Send _ | Get _ _ => False
  | _ => True
  end.

(** The status codes [raise_for_status] raises on. *)
Definition error_status (status : Z) : Prop := (400 <= status < 600)%Z.


(** A sample outside: the first utterance is a composite command, the
    device times out on the first request and answers 404 to the
    second, and SIGINT arrives during the last delay. *)
Definition sample_env : env :=
  {| heard := fun n =>
       match n with
       | 1 => inr "Turn everything ON"
       | _ => inl UnknownValueError
       end;
     replies := fun n =>
       match n with
       | 2 => inl (Timeout "timed out")
       | 4 => inr 404%Z
       | _ => inr 200%Z
       end;
     sigint := fun n => Nat.eqb n 9 |}.

(** A sample outside where nothing is understood. *)
Definition silent_env : env :=
  {| heard := fun _ => inl UnknownValueError;
     replies := fun _ => inr 200%Z;
     sigint := fun _ => false |}.

End Props.

(* ------------------------------------------------------------------ *)
(** ** The entry point: [setup_logging] and [main]                       *)
(* ------------------------------------------------------------------ *)

Module Entry.
Import Text Matcher Controller.
Local Open Scope list_scope.

(** What [parse_args] hands over: [args.ip], [args.ambient],
    [args.verbose]. *)
Record namespace : Type := {
  ip : string;
  ambient : Q;
  verbose : bool
}.

(** [setup_logging]: the level given to [logging.basicConfig]. *)
Definition setup_logging (verbose : bool) : level :=
  if verbose then DEBUG else INFO.

(** The numeric value of a level in [logging]. *)
Definition severity (lvl : level) : nat :=
  match lvl with
  | DEBUG => 10
  | INFO => 20
  | WARNING => 30
  | ERROR => 40
  end.

(** The logging calls of a run of events that the root logger lets
    through when set to [threshold]. *)
Definition printed (threshold : level) (evs : list event) : list event :=
  filter (fun ev =>
            match ev with
            | Log lvl _ _ => Nat.leb (severity threshold) (severity lvl)
            | _ => false
            end) evs.

(** How [main] ends: its return value, if the loop was left within the
    passes given; the level it set; the world it leaves. *)
Record ending : Type := {
  exit_code : option Z;
  log_level : level;
  final : world
}.

(** [main], from the parsed arguments on. The handler of SIGINT it
    installs is the one [blocking] runs; [except Exception] catches
    whatever [run] raises, and [logging.exception] logs at ERROR with
    the exception attached. *)
Definition main (fuel : nat) (args : namespace) (e : env) : ending :=
  let threshold := setup_logging (verbose args) in
  let controller := init (ip args) e in
  match run fuel (ambient args) DEFAULT_PAUSE controller with
  | (inl exc, w) =>
      {| exit_code := Some 2%Z; log_level := threshold;
         final := snd (logging ERROR "Unexpected error" [AExn exc] w) |}
  | (inr true, w) =>
      {| exit_code := Some 0%Z; log_level := threshold; final := w |}
  | (inr false, w) =>
      {| exit_code := None; log_level := threshold; final := w |}
  end.

End Entry.

(* ------------------------------------------------------------------ *)
(** ** Further vocabulary                                                *)
(* ------------------------------------------------------------------ *)

Module MoreProps.
Import Text Regex Matcher Controller Props Entry.
Local Open Scope list_scope.


(** The table without the phrases that hold another phrase of their
    own entry. *)
Definition command_map_reduced : list (list string * string) :=
  [ (["turn everything on"; "all on"], "all/on");
    (["turn everything off"; "all off"], "all/off");
    (["led on"; "turn on led"], "led/on");
    (["led off"; "turn off led"], "led/off");
    (["light on"; "turn on light"], "light/on");
    (["light off"; "turn off light"], "light/off");
    (["fan on"; "turn on fan"], "fan/on");
    (["fan off"; "turn off fan"], "fan/off") ].

(** The endpoints of single devices. *)
Definition concrete_endpoints : list string :=
  all_on_members ++ all_off_members.

(** The target [send_command] builds. *)
Definition url_of (host path : string) : string :=
  ("http://" ++ host ++ "/" ++ path)%string.

(** An event is in order for a controller of [host]: a request goes to
    a single device of that host with the default timeout, and the
    dispatcher is called on single devices only. *)
Definition proper (host : string) (ev : event) : Prop :=
  match ev with
  | Get url timeout =>
      timeout = DEFAULT_TIMEOUT
      /\ exists path, In path concrete_endpoints /\ url = url_of host path
  | Send path => In path concrete_endpoints
  | _ => True
  end.

(** The calls that only wait. *)
Definition waiting (ev : event) : Prop :=
  match ev with
  | Listen | Recognize | Sleep _ | Calibrate _ => True
  | _ => False
  end.

(** From [w] to [w'] every SIGINT that arrived has been obeyed: the
    flag is down if it was down or if some blocking call in between
    was interrupted. *)
Definition tracked (w w' : world) : Prop :=
  esp32_ip w' = esp32_ip w
  /\ outside w' = outside w
  /\ clock w <= clock w'
  /\ (running w = false -> running w' = false)
  /\ (forall n, clock w <= n < clock w' ->
                sigint (outside w) n = true -> running w' = false).

(** From [w] to [w'] only events in order were added. *)
Definition orderly (w w' : world) : Prop :=
  esp32_ip w' = esp32_ip w
  /\ exists evs, trace w' = evs ++ trace w
                 /\ Forall (proper (esp32_ip w)) evs.

(** Every run of [m] relates the world it starts from to the one it
    leaves. *)
Definition respects {A} (R : world -> world -> Prop) (m : M A) : Prop :=
  forall w, R w (snd (m w)).

Definition not_calibrate (ev : event) : Prop :=
  forall duration, ev <> Calibrate duration.

Definition not_warning (ev : event) : Prop :=
  forall fmt args, ev <> Log WARNING fmt args.

(** A sample outside whose device library fails in an unforeseen way
    on the first request. *)
Definition broken_env : env :=
  {| heard := fun _ => inr "Fan ON";
     replies := fun _ => inl (OtherError "unforeseen");
     sigint := fun _ => false |}.

(** A sample outside: one command is understood and served, and SIGINT
    arrives while the controller listens for the next. *)
Definition session_env : env :=
  {| heard := fun n =>
       match n with
       | 2 => inr "light on"
       | _ => inl UnknownValueError
       end;
     replies := fun _ => inr 200%Z;
     sigint := fun n => Nat.eqb n 4 |}.

End MoreProps.

Import Text Regex Matcher Controller Props.
Local Open Scope list_scope.
Local Open Scope ctl_scope.

(* ------------------------------------------------------------------ *)
(** ** Facts about text                                                  *)
(* ------------------------------------------------------------------ *)

Section TextFacts.

Lemma ascii_eqb_eq (a b : ascii) : ascii_eqb a b = true <-> a = b.
Proof. unfold ascii_eqb. apply Ascii.eqb_eq. Qed.

Lemma starts_with_spec (p : text) :
  forall t, starts_with p t = true <-> exists s, t = p ++ s.
Proof.
  induction p as [|a p IH]; intros t; simpl.
  - split; [intros _; now exists t | reflexivity].
  - destruct t as [|b t].
    + split; [discriminate | intros [s Hs]; discriminate].
    + rewrite andb_true_iff, ascii_eqb_eq, IH. split.
      * intros [-> [s ->]]. now exists s.
      * intros [s Hs]. injection Hs as -> ->. split; [reflexivity | now exists s].
Qed.

Lemma contains_spec (p : text) :
  forall t, contains p t = true <-> occurs p t.
Proof.
  unfold occurs. induction t as [|c t IH]; simpl.
  - rewrite orb_false_r, starts_with_spec. split.
    + intros [s Hs]. now exists [], s.
    + intros [pre [post H]]. symmetry in H.
      apply app_eq_nil in H as [-> H]. exists post. simpl. now symmetry.
  - rewrite orb_true_iff, starts_with_spec, IH. split.
    + intros [[s Hs] | [pre [post H]]].
      * now exists [], s.
      * exists (c :: pre), post. simpl. now f_equal.
    + intros [[|d pre] [post H]].
      * left. now exists post.
      * right. injection H as _ H. now exists pre, post.
Qed.

Lemma contains_false (p t : text) : contains p t = false <-> ~ occurs p t.
Proof.
  rewrite <- contains_spec. destruct (contains p t); split; congruence.
Qed.

Lemma after_app (p : option ascii) (l1 l2 : text) :
  after p (l1 ++ l2) = after (after p l1) l2.
Proof. unfold after. apply fold_left_app. Qed.

Lemma after_cons (p q : option ascii) (a : ascii) (l : text) :
  after p (a :: l) = after q (a :: l).
Proof. reflexivity. Qed.

End TextFacts.

(* ------------------------------------------------------------------ *)
(** ** The matcher of patterns agrees with their declarative reading     *)
(* ------------------------------------------------------------------ *)

Section RegexFacts.

Lemma steps_lit (l : text) :
  forall p s p' s',
    steps (Lit l) p s p' s' <-> s = l ++ s' /\ p' = after p l.
Proof.
  induction l as [|a l IH]; intros p s p' s'; split.
  - intros H. inversion H; subst. now split.
  - intros [-> ->]. constructor.
  - intros H. inversion H; subst.
    match goal with H1 : steps (Lit l) _ _ _ _ |- _ => apply IH in H1 as [-> ->] end.
    now split.
  - intros [-> ->]. simpl. constructor. apply IH. now split.
Qed.

Lemma steps_dot_run :
  forall r p s p' s',
    steps r p s p' s' -> r = DotStar ->
    exists f, s = f ++ s' /\ no_newline f /\ p' = after p f.
Proof.
  induction 1; intros E; try discriminate.
  - exists []. repeat split. constructor.
  - destruct (IHsteps E) as [f [-> [Hf ->]]].
    exists (c :: f). repeat split. now constructor.
Qed.

Lemma steps_dot :
  forall p s p' s',
    steps DotStar p s p' s'
    <-> exists f, s = f ++ s' /\ no_newline f /\ p' = after p f.
Proof.
  intros p s p' s'. split.
  - intros H. now apply (steps_dot_run DotStar).
  - intros [f [-> [Hf ->]]]. revert p.
    induction Hf as [|c f Hc Hf IH]; intros p; simpl.
    + constructor.
    + constructor; [exact Hc | apply IH].
Qed.

Lemma steps_wordb :
  forall p s p' s',
    steps WordB p s p' s' <-> p' = p /\ s' = s /\ at_boundary p s = true.
Proof.
  intros. split.
  - intros H. inversion H; subst. auto.
  - intros [-> [-> H]]. now constructor.
Qed.

Lemma steps_alt (a b : regex) :
  forall p s p' s',
    steps (Alt a b) p s p' s' <-> steps a p s p' s' \/ steps b p s p' s'.
Proof.
  intros. split.
  - intros H. inversion H; subst; auto.
  - intros [H | H]; [now apply st_alt_l | now apply st_alt_r].
Qed.

Lemma steps_cat (a b : regex) :
  forall p s p' s',
    steps (Cat a b) p s p' s'
    <-> exists p1 s1, steps a p s p1 s1 /\ steps b p1 s1 p' s'.
Proof.
  intros. split.
  - intros H. inversion H; subst. eauto.
  - intros [p1 [s1 [Ha Hb]]]. eapply st_cat; eauto.
Qed.

Lemma lit_k_spec (l : text) :
  forall p s k,
    lit_k l p s k = true
    <-> exists p' s', steps (Lit l) p s p' s' /\ k p' s' = true.
Proof.
  induction l as [|a l IH]; intros p s k; simpl.
  - split.
    + intros H. exists p, s. split; [constructor | exact H].
    + intros [p' [s' [H Hk]]]. inversion H; subst. exact Hk.
  - destruct s as [|c s].
    + split; [discriminate |].
      intros [p' [s' [H _]]]. inversion H.
    + rewrite andb_true_iff, ascii_eqb_eq, IH. split.
      * intros [-> [p' [s' [H Hk]]]]. exists p', s'. split; [now constructor | exact Hk].
      * intros [p' [s' [H Hk]]]. inversion H; subst. split; [reflexivity | eauto].
Qed.

Lemma dotstar_k_spec :
  forall s p k,
    dotstar_k p s k = true
    <-> exists p' s', steps DotStar p s p' s' /\ k p' s' = true.
Proof.
  induction s as [|c s IH]; intros p k; simpl.
  - split.
    + intros H. exists p, []. split; [constructor | exact H].
    + intros [p' [s' [H Hk]]]. inversion H; subst. exact Hk.
  - rewrite orb_true_iff, andb_true_iff, negb_true_iff, IH. split.
    + intros [[Hc [p' [s' [H Hk]]]] | Hk].
      * exists p', s'. split; [| exact Hk]. constructor; [| exact H].
        intros ->. unfold ascii_eqb in Hc. rewrite Ascii.eqb_refl in Hc. discriminate.
      * exists p, (c :: s). split; [constructor | exact Hk].
    + intros [p' [s' [H Hk]]]. inversion H; subst.
      * now right.
      * left. split; [| eauto].
        destruct (ascii_eqb c newline) eqn:E; [| reflexivity].
        apply ascii_eqb_eq in E. contradiction.
Qed.

Lemma match_k_spec (r : regex) :
  forall p s k,
    match_k r p s k = true
    <-> exists p' s', steps r p s p' s' /\ k p' s' = true.
Proof.
  induction r as [l | | | a IHa b IHb | a IHa b IHb]; intros p s k; simpl.
  - apply lit_k_spec.
  - apply dotstar_k_spec.
  - rewrite andb_true_iff. split.
    + intros [Hb Hk]. exists p, s. split; [now constructor | exact Hk].
    + intros [p' [s' [H Hk]]]. apply steps_wordb in H as [-> [-> Hb]]. now split.
  - rewrite orb_true_iff, IHa, IHb. split.
    + intros [[p' [s' [H Hk]]] | [p' [s' [H Hk]]]]; exists p', s';
        (split; [apply steps_alt; auto | exact Hk]).
    + intros [p' [s' [H Hk]]]. apply steps_alt in H as [H | H]; eauto.
  - rewrite IHa. split.
    + intros [p1 [s1 [Ha Hb]]]. apply IHb in Hb as [p' [s' [Hb Hk]]].
      exists p', s'. split; [apply steps_cat; eauto | exact Hk].
    + intros [p' [s' [H Hk]]]. apply steps_cat in H as [p1 [s1 [Ha Hb]]].
      exists p1, s1. split; [exact Ha | apply IHb; eauto].
Qed.

Lemma search_from_spec (r : regex) :
  forall s p,
    search_from r p s = true
    <-> exists pre rest p' s',
          s = pre ++ rest /\ steps r (after p pre) rest p' s'.
Proof.
  induction s as [|c s IH]; intros p; simpl;
    rewrite orb_true_iff, match_k_spec.
  - split.
    + intros [[p' [s' [H _]]] | H]; [| discriminate].
      exists [], [], p', s'. now split.
    + intros [pre [rest [p' [s' [E H]]]]]. symmetry in E.
      apply app_eq_nil in E as [-> ->]. left. exists p', s'. now split.
  - rewrite IH. split.
    + intros [[p' [s' [H _]]] | [pre [rest [p' [s' [E H]]]]]].
      * exists [], (c :: s), p', s'. now split.
      * exists (c :: pre), rest, p', s'. split; [simpl; now f_equal | exact H].
    + intros [[|d pre] [rest [p' [s' [E H]]]]].
      * left. simpl in E. subst rest. exists p', s'. now split.
      * right. injection E as -> ->. exists pre, rest, p', s'. now split.
Qed.

Lemma search_spec (r : regex) (t : text) :
  search r t = true
  <-> exists pre rest p' s',
        t = pre ++ rest /\ steps r (after None pre) rest p' s'.
Proof. apply search_from_spec. Qed.

End RegexFacts.

Section PatternFacts.

Lemma xorb_true_right (b : bool) : xorb b true = true <-> b = false.
Proof. destruct b; simpl; split; congruence. Qed.

Lemma xorb_true_left (b : bool) : xorb true b = true <-> b = false.
Proof. destruct b; simpl; split; congruence. Qed.

Lemma verb_boundary (p : option ascii) (verb rest : text) :
  verb = str "turn" \/ verb = str "switch" ->
  at_boundary p (verb ++ rest) = true <-> word_before p = false.
Proof.
  intros [-> | ->]; unfold at_boundary; simpl; apply xorb_true_right.
Qed.

Lemma tail_boundary (w : string) (p : option ascii) (post : text) :
  w = "on" \/ w = "off" ->
  at_boundary (after p (str (" " ++ w)%string)) post = true
  <-> word_after post = false.
Proof.
  intros [-> | ->]; unfold at_boundary; simpl; apply xorb_true_left.
Qed.

Lemma steps_all_pattern (w : string) :
  w = "on" \/ w = "off" ->
  forall p s p' s',
    steps (all_pattern w) p s p' s'
    <-> exists verb f1 f2,
          s = verb ++ str " " ++ f1 ++ str " all " ++ f2
                ++ str (" " ++ w)%string ++ s'
          /\ (verb = str "turn" \/ verb = str "switch")
          /\ no_newline f1 /\ no_newline f2
          /\ word_before p = false
          /\ word_after s' = false
          /\ p' = after None (str (" " ++ w)%string).
Proof.
  intros Hw p s p' s'. unfold all_pattern. split.
  - intros H.
    apply steps_cat in H as (p0 & s0 & Hb & H).
    apply steps_wordb in Hb as (-> & -> & Hb).
    apply steps_cat in H as (p1 & s1 & Hv & H).
    apply steps_cat in H as (p2 & s2 & Hsp & H).
    apply steps_cat in H as (p3 & s3 & Hf1 & H).
    apply steps_cat in H as (p4 & s4 & Hall & H).
    apply steps_cat in H as (p5 & s5 & Hf2 & H).
    apply steps_cat in H as (p6 & s6 & Hon & He).
    apply steps_wordb in He as (-> & -> & He).
    assert (Hverb : exists verb, (verb = str "turn" \/ verb = str "switch")
                                 /\ s = verb ++ s1 /\ p1 = after p verb).
    { apply steps_alt in Hv as [Hv | Hv]; apply steps_lit in Hv as (Hs & Hp);
        eexists; (split; [| split; [exact Hs | exact Hp]]); auto. }
    destruct Hverb as (verb & Hverb & -> & ->).
    apply steps_lit in Hon as (-> & ->).
    apply steps_dot in Hf2 as (f2 & -> & Hf2 & ->).
    apply steps_lit in Hall as (-> & ->).
    apply steps_dot in Hf1 as (f1 & -> & Hf1 & ->).
    apply steps_lit in Hsp as (-> & ->).
    exists verb, f1, f2.
    apply (verb_boundary _ _ _ Hverb) in Hb.
    apply (tail_boundary _ _ _ Hw) in He.
    repeat split; auto.
  - intros (verb & f1 & f2 & -> & Hverb & Hf1 & Hf2 & Hb & He & ->).
    apply steps_cat. exists p, (verb ++ str " " ++ f1 ++ str " all " ++ f2
                                  ++ str (" " ++ w)%string ++ s').
    split. { apply steps_wordb. repeat split. now apply verb_boundary. }
    apply steps_cat.
    exists (after p verb), (str " " ++ f1 ++ str " all " ++ f2
                              ++ str (" " ++ w)%string ++ s').
    split.
    { apply steps_alt. destruct Hverb as [-> | ->]; [left | right];
        apply steps_lit; split; reflexivity. }
    apply steps_cat. eexists _, _. split. { apply steps_lit; split; reflexivity. }
    apply steps_cat. eexists _, _. split. { apply steps_dot. exists f1. repeat split. exact Hf1. }
    apply steps_cat. eexists _, _. split. { apply steps_lit; split; reflexivity. }
    apply steps_cat. eexists _, _. split. { apply steps_dot. exists f2. repeat split. exact Hf2. }
    apply steps_cat. eexists _, _. split. { apply steps_lit; split; reflexivity. }
    apply steps_wordb. repeat split. now apply tail_boundary.
Qed.

Lemma search_all_pattern (w : string) (t : text) :
  w = "on" \/ w = "off" ->
  search (all_pattern w) t = true <-> pattern_shape w t.
Proof.
  intros Hw. rewrite search_spec. unfold pattern_shape. split.
  - intros (pre & rest & p' & s' & -> & H).
    apply (steps_all_pattern w Hw) in H
      as (verb & f1 & f2 & -> & Hverb & Hf1 & Hf2 & Hb & He & _).
    exists pre, verb, f1, f2, s'. repeat split; auto.
  - intros (pre & verb & f1 & f2 & post & -> & Hverb & Hf1 & Hf2 & Hb & He).
    eexists pre, _, _, post. split; [reflexivity |].
    apply (steps_all_pattern w Hw). exists verb, f1, f2. repeat split; auto.
Qed.

Lemma search_all_pattern_false (w : string) (t : text) :
  w = "on" \/ w = "off" ->
  search (all_pattern w) t = false <-> ~ pattern_shape w t.
Proof.
  intros Hw. rewrite <- (search_all_pattern w t Hw).
  destruct (search (all_pattern w) t); split; congruence.
Qed.

End PatternFacts.

(* ------------------------------------------------------------------ *)
(** ** Facts about the command table                                     *)
(* ------------------------------------------------------------------ *)

Section TableFacts.

Lemma entry_hits_spec (t : text) (phrases : list string) :
  entry_hits t phrases = true
  <-> exists p, In p phrases /\ occurs (str p) t.
Proof.
  unfold entry_hits. rewrite existsb_exists.
  split; intros [p [Hp H]]; exists p; (split; [exact Hp | now apply contains_spec]).
Qed.

Variable table : list (list string * string).

Lemma table_lookup_none (t : text) :
  table_lookup table t = None
  <-> forall e, In e table -> entry_hits t (fst e) = false.
Proof.
  induction table as [|[phrases endpoint] tbl IH]; simpl.
  - split; [intros _ e [] | reflexivity].
  - destruct (entry_hits t phrases) eqn:E.
    + split; [discriminate |]. intros H.
      specialize (H (phrases, endpoint) (or_introl eq_refl)). simpl in H. congruence.
    + rewrite IH. split.
      * intros H e [<- | He]; [exact E | now apply H].
      * intros H e He. apply H. now right.
Qed.

Lemma table_lookup_in (t : text) (endpoint : string) :
  table_lookup table t = Some endpoint -> In endpoint (map snd table).
Proof.
  induction table as [|[phrases ep] tbl IH]; simpl; [discriminate |].
  destruct (entry_hits t phrases).
  - intros [= ->]. now left.
  - intros H. right. now apply IH.
Qed.

(** The first entry that hits decides, whatever follows it. *)
Lemma table_lookup_first (t : text) :
  forall i e,
    nth_error table i = Some e ->
    entry_hits t (fst e) = true ->
    (forall k ek, k < i -> nth_error table k = Some ek ->
                  entry_hits t (fst ek) = false) ->
    table_lookup table t = Some (snd e).
Proof.
  induction table as [|[phrases ep] tbl IH]; intros i e Hi He Hbefore.
  - destruct i; discriminate.
  - destruct i as [|i]; simpl in *.
    + injection Hi as <-. simpl in He. now rewrite He.
    + pose proof (Hbefore 0 (phrases, ep) (Nat.lt_0_succ i) eq_refl) as H0.
      simpl in H0. rewrite H0.
      apply (IH i e Hi He). intros k ek Hk Hnth.
      apply (Hbefore (S k) ek); [lia | exact Hnth].
Qed.

(** If some entry hits, there is a first one, at or before it. *)
Lemma first_hit_exists (t : text) :
  forall i e,
    nth_error table i = Some e ->
    entry_hits t (fst e) = true ->
    exists k ek,
      k <= i /\ nth_error table k = Some ek
      /\ entry_hits t (fst ek) = true
      /\ forall k' e', k' < k -> nth_error table k' = Some e' ->
                       entry_hits t (fst e') = false.
Proof.
  induction table as [|[phrases ep] tbl IH]; intros i e Hi He.
  - destruct i; discriminate.
  - destruct (entry_hits t phrases) eqn:E.
    + exists 0, (phrases, ep). repeat split; [lia | exact E | intros; lia].
    + destruct i as [|i]; simpl in Hi.
      * injection Hi as <-. simpl in He. congruence.
      * destruct (IH i e Hi He) as (k & ek & Hk & Hnth & Hhit & Hfirst).
        exists (S k), ek. repeat split; [lia | exact Hnth | exact Hhit |].
        intros [|k'] e' Hlt Hn; simpl in Hn.
        -- injection Hn as <-. exact E.
        -- apply (Hfirst k' e'); [lia | exact Hn].
Qed.

End TableFacts.

Section MatcherFacts.

Lemma match_text_hit (t : text) (endpoint : string) :
  table_lookup command_map (lower t) = Some endpoint ->
  match_text t = Some endpoint.
Proof. unfold match_text. now intros ->. Qed.

Lemma match_text_miss (t : text) :
  table_lookup command_map (lower t) = None ->
  match_text t = fallback (lower t).
Proof. unfold match_text. now intros ->. Qed.

Lemma phrase_free_lookup (t : text) :
  phrase_free t <-> table_lookup command_map t = None.
Proof.
  rewrite table_lookup_none. unfold phrase_free. split.
  - intros H [phrases endpoint] Hin. simpl.
    destruct (entry_hits t phrases) eqn:E; [| reflexivity].
    apply entry_hits_spec in E as [p [Hp Hocc]].
    now destruct (H phrases endpoint p Hin Hp).
  - intros H phrases endpoint p Hin Hp Hocc.
    specialize (H _ Hin). simpl in H.
    assert (entry_hits t phrases = true) by (apply entry_hits_spec; eauto).
    congruence.
Qed.

Lemma hits_true (t : text) (e : list string * string) :
  entry_hits t (fst e) = true <-> hits t e.
Proof. apply entry_hits_spec. Qed.

Lemma hits_false (t : text) (e : list string * string) :
  entry_hits t (fst e) = false <-> ~ hits t e.
Proof.
  rewrite <- hits_true. destruct (entry_hits t (fst e)); split; congruence.
Qed.

Lemma phrases_lowercase :
  Forall (fun e => Forall (fun p => lower (str p) = str p) (fst e)) command_map.
Proof. repeat constructor. Qed.

(** A phrase that occurs in the text as it came still occurs once the
    text is lowercased. *)
Lemma hits_lower (t : text) (e : list string * string) :
  In e command_map -> hits t e -> hits (lower t) e.
Proof.
  intros He (p & Hp & pre & post & ->).
  exists p. split; [exact Hp |].
  exists (lower pre), (lower post). unfold lower. rewrite !map_app.
  pose proof phrases_lowercase as H. rewrite Forall_forall in H.
  specialize (H e He). rewrite Forall_forall in H.
  specialize (H p Hp). unfold lower in H. now rewrite H.
Qed.

Lemma earliest_decides (t : text) (i : nat) (e : list string * string) :
  earliest (lower t) i e -> match_text t = Some (snd e).
Proof.
  intros (Hi & He & Hbefore). apply match_text_hit.
  apply (table_lookup_first command_map (lower t) i e Hi).
  - now apply hits_true.
  - intros k ek Hk Hnth. apply hits_false. now apply (Hbefore k ek).
Qed.

Lemma earliest_exists (t : text) (i : nat) (e : list string * string) :
  nth_error command_map i = Some e -> hits (lower t) e ->
  exists k ek, k <= i /\ earliest (lower t) k ek.
Proof.
  intros Hi He. apply hits_true in He.
  destruct (first_hit_exists command_map (lower t) i e Hi He)
    as (k & ek & Hk & Hnth & Hhit & Hfirst).
  exists k, ek. split; [exact Hk |]. split; [exact Hnth |].
  split; [now apply hits_true |].
  intros k' e' Hlt Hn. apply hits_false. now apply (Hfirst k' e').
Qed.

Lemma endpoints_distinct :
  forall i j ei ej,
    nth_error command_map i = Some ei ->
    nth_error command_map j = Some ej ->
    snd ei = snd ej -> i = j.
Proof.
  assert (Hnd : NoDup (map snd command_map)).
  { simpl. repeat (constructor; [simpl; intuition discriminate |]). constructor. }
  intros i j ei ej Hi Hj E.
  assert (Hlt : i < length (map snd command_map)).
  { rewrite length_map. apply nth_error_Some. congruence. }
  apply (proj1 (NoDup_nth_error (map snd command_map)) Hnd i j Hlt).
  rewrite !nth_error_map, Hi, Hj. simpl. now f_equal.
Qed.

Lemma fallback_range (t : text) :
  fallback t = None \/ fallback t = Some "all/on" \/ fallback t = Some "all/off".
Proof.
  unfold fallback.
  destruct (search (all_pattern "on") t); [auto |].
  destruct (search (all_pattern "off") t); auto.
Qed.

Lemma match_text_range (t : text) :
  match match_text t with
  | None => True
  | Some endpoint => In endpoint matcher_endpoints
  end.
Proof.
  unfold match_text.
  destruct (table_lookup command_map (lower t)) as [ep|] eqn:E.
  - apply table_lookup_in in E. exact E.
  - destruct (fallback_range (lower t)) as [-> | [-> | ->]]; simpl; auto.
Qed.

End MatcherFacts.

(* ------------------------------------------------------------------ *)
(** ** The matcher: fixtures, precedence, range                          *)
(* ------------------------------------------------------------------ *)

Section MatcherClaims.

(** C1. On [projector off now] the matcher finds nothing: the table
    has no projector entry and the text holds neither verb of the
    fallback patterns; the expected [projector/off] is not returned. *)
Theorem C1_projector_off_unmatched :
  _match_command "projector off now" = None
  /\ _match_command "projector off now" <> Some "projector/off".
Proof. split; [reflexivity | discriminate]. Qed.

(** C7. The literal results for the fixtures that do not name the
    projector. *)
Theorem C7_literal_fixtures :
  _match_command "LED on" = Some "led/on"
  /\ _match_command "turn led off" = Some "led/off"
  /\ _match_command "please turn the light on" = Some "light/on"
  /\ _match_command "fan on please" = Some "fan/on"
  /\ _match_command "turn everything on" = Some "all/on"
  /\ _match_command "can you turn everything off" = Some "all/off".
Proof. repeat split; reflexivity. Qed.

(** C9. Whatever the input, the matcher returns nothing or one of its
    eight endpoints, each of which some input reaches; the projector
    endpoints are never returned, although both composite sequences
    of the control loop hold one. *)
Theorem C9_matcher_range :
  (forall u,
      match _match_command u with
      | None => True
      | Some endpoint => In endpoint matcher_endpoints
      end)
  /\ (forall u, _match_command u <> Some "projector/on"
                /\ _match_command u <> Some "projector/off")
  /\ Forall (fun endpoint => exists u, _match_command u = Some endpoint)
            matcher_endpoints
  /\ In "projector/on" all_on_members
  /\ In "projector/off" all_off_members.
Proof.
  assert (Hrange : forall u,
             match _match_command u with
             | None => True
             | Some endpoint => In endpoint matcher_endpoints
             end).
  { intros u. apply match_text_range. }
  split; [exact Hrange |]. split.
  - intros u. specialize (Hrange u).
    destruct (_match_command u) as [ep|]; [| split; discriminate].
    split; intros [= ->]; simpl in Hrange; intuition discriminate.
  - split; [| simpl; auto 6].
    repeat constructor.
    + now exists "all on".
    + now exists "all off".
    + now exists "led on".
    + now exists "led off".
    + now exists "light on".
    + now exists "light off".
    + now exists "fan on".
    + now exists "fan off".
Qed.

(** C8. When no phrase of the table occurs in the lowercased input
    and neither fallback pattern finds its shape there, the matcher
    returns [None], an ordinary value; so it does on [play music] and
    on the empty string. *)
Theorem C8_no_match :
  (forall u,
      phrase_free (lower (str u)) ->
      ~ pattern_shape "on" (lower (str u)) ->
      ~ pattern_shape "off" (lower (str u)) ->
      _match_command u = None)
  /\ _match_command "play music" = None
  /\ _match_command "" = None.
Proof.
  split; [| split; reflexivity].
  intros u Hfree Hon Hoff.
  unfold _match_command. rewrite match_text_miss by now apply phrase_free_lookup.
  unfold fallback.
  apply search_all_pattern_false in Hon; [| now left].
  apply search_all_pattern_false in Hoff; [| now right].
  now rewrite Hon, Hoff.
Qed.

Lemma C8_no_match_witness :
  phrase_free (lower (str "what time is it"))
  /\ _match_command "what time is it" = None.
Proof.
  assert (Hfree : phrase_free (lower (str "what time is it"))).
  { apply phrase_free_lookup. reflexivity. }
  split; [exact Hfree |].
  destruct C8_no_match as [H _].
  apply (H "what time is it" Hfree).
  - apply search_all_pattern_false; [now left | reflexivity].
  - apply search_all_pattern_false; [now right | reflexivity].
Defined.

(** C2. First match wins. When phrases of two entries occur in the
    lowercased utterance, the result is the endpoint of the first
    entry of the table that hits, which stands at or before the
    earlier of the two; it is never the endpoint of the later one,
    and it is the earlier one's when nothing before it hits. When a
    phrase of the table occurs and a fallback pattern finds its shape
    too, the result is still the table's. A phrase that occurs in the
    utterance as spoken occurs in the lowercased one. *)
Theorem C2_first_match_wins :
  (forall u i j ei ej,
      i < j ->
      nth_error command_map i = Some ei ->
      nth_error command_map j = Some ej ->
      hits (lower (str u)) ei ->
      hits (lower (str u)) ej ->
      (exists k ek, k <= i /\ earliest (lower (str u)) k ek
                    /\ _match_command u = Some (snd ek))
      /\ _match_command u <> Some (snd ej)
      /\ (earliest (lower (str u)) i ei -> _match_command u = Some (snd ei)))
  /\ (forall u i ei w,
      nth_error command_map i = Some ei ->
      hits (lower (str u)) ei ->
      w = "on" \/ w = "off" ->
      pattern_shape w (lower (str u)) ->
      (exists k ek, k <= i /\ earliest (lower (str u)) k ek
                    /\ _match_command u = Some (snd ek))
      /\ _match_command u = table_lookup command_map (lower (str u)))
  /\ (forall u e,
      In e command_map -> hits (str u) e -> hits (lower (str u)) e).
Proof.
  split; [| split; [| intros u e; apply hits_lower]].
  - intros u i j ei ej Hij Hi Hj Hei Hej.
    destruct (earliest_exists (str u) i ei Hi Hei) as (k & ek & Hk & Hfirst).
    pose proof (earliest_decides (str u) k ek Hfirst) as Hres.
    split; [| split].
    + exists k, ek. auto.
    + unfold _match_command. rewrite Hres. intros [= E].
      destruct Hfirst as (Hnth & _).
      pose proof (endpoints_distinct k j ek ej Hnth Hj E). lia.
    + apply earliest_decides.
  - intros u i ei w Hi Hei _ _.
    destruct (earliest_exists (str u) i ei Hi Hei) as (k & ek & Hk & Hfirst).
    pose proof (earliest_decides (str u) k ek Hfirst) as Hres.
    split; [exists k, ek; auto |].
    unfold _match_command, match_text in *.
    destruct (table_lookup command_map (lower (str u))) eqn:E; [reflexivity |].
    apply phrase_free_lookup in E. destruct Hei as (p & Hp & Hocc).
    destruct ei as [phrases endpoint]. apply nth_error_In in Hi.
    now destruct (E phrases endpoint p Hi Hp).
Qed.

Lemma C2_first_match_wins_witness :
  _match_command "led on and fan off" = Some "led/on"
  /\ _match_command "switch the fan on then all back on" = Some "fan/on".
Proof.
  destruct C2_first_match_wins as (Htable & Hregex & _).
  assert (Hled : hits (lower (str "led on and fan off"))
                   (["led on"; "turn on led"; "turn led on"], "led/on"))
    by (apply hits_true; reflexivity).
  assert (Hfan : hits (lower (str "led on and fan off"))
                   (["fan off"; "turn off fan"], "fan/off"))
    by (apply hits_true; reflexivity).
  assert (Hlt : 2 < 7) by lia.
  assert (Hfan' : hits (lower (str "switch the fan on then all back on"))
                    (["fan on"; "turn on fan"], "fan/on"))
    by (apply hits_true; reflexivity).
  assert (Hshape : pattern_shape "on"
                     (lower (str "switch the fan on then all back on")))
    by (apply search_all_pattern; [now left | reflexivity]).
  split.
  - destruct (Htable "led on and fan off" 2 7 _ _ Hlt eq_refl eq_refl Hled Hfan)
      as (_ & _ & H).
    apply H. split; [reflexivity |]. split; [exact Hled |].
    intros k ek Hk Hnth. apply hits_false.
    destruct k as [|[|k]]; [| | lia]; injection Hnth as <-; reflexivity.
  - destruct (Hregex "switch the fan on then all back on" 6 _ "on"
                eq_refl Hfan' (or_introl eq_refl) Hshape) as (_ & H).
    rewrite H. reflexivity.
Defined.

End MatcherClaims.

(* ------------------------------------------------------------------ *)
(** ** The fallback patterns                                             *)
(* ------------------------------------------------------------------ *)

Section FallbackClaims.

Lemma str_app (a b : string) : str (a ++ b)%string = str a ++ str b.
Proof.
  unfold str. induction a as [|c a IH]; simpl; [reflexivity | now rewrite IH].
Qed.

Lemma string_app_assoc (a b c : string) :
  ((a ++ b) ++ c)%string = (a ++ (b ++ c))%string.
Proof. induction a as [|x a IH]; simpl; [reflexivity | now rewrite IH]. Qed.

Lemma unwords_cons (w : string) (ws : list string) :
  ws <> [] -> unwords (w :: ws) = (w ++ " " ++ unwords ws)%string.
Proof. destruct ws; [congruence | reflexivity]. Qed.

Lemma unwords_app (a b : list string) :
  a <> [] -> b <> [] ->
  unwords (a ++ b) = (unwords a ++ " " ++ unwords b)%string.
Proof.
  intros Ha Hb. induction a as [|w a IH]; [congruence |].
  destruct a as [|w' a].
  - simpl app. now rewrite unwords_cons.
  - change ((w :: w' :: a) ++ b) with (w :: ((w' :: a) ++ b)).
    rewrite unwords_cons by discriminate.
    rewrite IH by discriminate.
    rewrite (unwords_cons w (w' :: a)) by discriminate.
    now rewrite !string_app_assoc.
Qed.

Lemma no_newline_app (a b : text) :
  no_newline a -> no_newline b -> no_newline (a ++ b).
Proof. unfold no_newline. intros. apply Forall_app. now split. Qed.

Lemma no_newline_unwords (ws : list string) :
  plain_words ws -> no_newline (str (unwords ws)).
Proof.
  induction 1 as [|w ws Hw Hws IH]; [constructor |].
  destruct ws as [|w' ws]; [exact Hw |].
  rewrite unwords_cons by discriminate. rewrite !str_app.
  apply no_newline_app; [exact Hw |].
  apply no_newline_app; [| exact IH].
  constructor; [discriminate | constructor].
Qed.

(** With a filler word after the verb, an utterance of the worded
    shape has the shape the pattern looks for, unless [all] and the
    last word stand side by side, which is a phrase of the table. *)
Lemma worded_pattern_shape (w verb : string) (fill1 fill2 : list string) :
  verb = "turn" \/ verb = "switch" ->
  fill1 <> [] -> fill2 <> [] ->
  plain_words fill1 -> plain_words fill2 ->
  pattern_shape w
    (str (unwords ([verb] ++ fill1 ++ ["all"] ++ fill2 ++ [w]))).
Proof.
  intros Hverb H1 H2 Hp1 Hp2.
  exists [], (str verb), (str (unwords fill1)), (str (unwords fill2)), [].
  split.
  - rewrite unwords_app by (try discriminate; now destruct fill1).
    rewrite (unwords_app fill1) by (try discriminate; exact H1).
    rewrite (unwords_app ["all"]) by (try discriminate; now destruct fill2).
    rewrite (unwords_app fill2) by (try discriminate; exact H2).
    rewrite !str_app. simpl. now rewrite app_nil_r.
  - split; [destruct Hverb as [-> | ->]; auto |].
    repeat split; auto using no_newline_unwords.
Qed.

Lemma worded_all_on (verb : string) (fill1 : list string) :
  occurs (str "all on") (str (unwords ([verb] ++ fill1 ++ ["all"] ++ [] ++ ["on"]))).
Proof.
  exists (str (unwords ([verb] ++ fill1) ++ " ")%string), [].
  change (fill1 ++ ["all"] ++ [] ++ ["on"]) with (fill1 ++ ["all"; "on"]).
  rewrite app_assoc.
  rewrite unwords_app by (try discriminate; now destruct fill1).
  rewrite !str_app. simpl. now rewrite <- !app_assoc.
Qed.

(** C3, as the code has it. When no phrase of the table occurs in
    the lowercased input, the matcher tries the two patterns in
    order: [all/on] when the first finds its shape, else [all/off]
    when the second does, else nothing. The shape is the verb at a
    word boundary, a space, any run without a line break, the
    characters [ all ] with both spaces, any run, a space and
    [on]/[off] at a word boundary: each run stands between two spaces
    of its own. So every phrase-free utterance made of the verb, at
    least one filler word, [all], filler words and [on] maps to
    [all/on]. *)
Theorem C3_fallback_patterns :
  forall u,
    phrase_free (lower (str u)) ->
    (pattern_shape "on" (lower (str u)) -> _match_command u = Some "all/on")
    /\ (~ pattern_shape "on" (lower (str u)) ->
        pattern_shape "off" (lower (str u)) ->
        _match_command u = Some "all/off")
    /\ (~ pattern_shape "on" (lower (str u)) ->
        ~ pattern_shape "off" (lower (str u)) ->
        _match_command u = None)
    /\ (forall verb fill1 fill2,
          verb = "turn" \/ verb = "switch" ->
          fill1 <> [] ->
          plain_words fill1 -> plain_words fill2 ->
          lower (str u)
          = str (unwords ([verb] ++ fill1 ++ ["all"] ++ fill2 ++ ["on"])) ->
          _match_command u = Some "all/on").
Proof.
  intros u Hfree.
  assert (Hon : pattern_shape "on" (lower (str u)) ->
                _match_command u = Some "all/on").
  { intros H. unfold _match_command.
    rewrite match_text_miss by now apply phrase_free_lookup.
    unfold fallback. apply search_all_pattern in H; [| now left]. now rewrite H. }
  split; [exact Hon |]. split; [| split].
  - intros Hno Hoff. unfold _match_command.
    rewrite match_text_miss by now apply phrase_free_lookup.
    unfold fallback.
    apply search_all_pattern_false in Hno; [| now left].
    apply search_all_pattern in Hoff; [| now right].
    now rewrite Hno, Hoff.
  - intros Hno Hno'. unfold _match_command.
    rewrite match_text_miss by now apply phrase_free_lookup.
    unfold fallback.
    apply search_all_pattern_false in Hno; [| now left].
    apply search_all_pattern_false in Hno'; [| now right].
    now rewrite Hno, Hno'.
  - intros verb fill1 fill2 Hverb H1 Hp1 Hp2 E.
    destruct fill2 as [|f fill2].
    + exfalso.
      apply (Hfree ["turn everything on"; "turn all on"; "all on"] "all/on" "all on").
      * simpl. auto.
      * simpl. auto.
      * rewrite E. apply worded_all_on.
    + apply Hon. rewrite E.
      apply worded_pattern_shape; auto. discriminate.
Qed.

Lemma C3_fallback_patterns_witness :
  phrase_free (lower (str "Switch them ALL back on"))
  /\ _match_command "Switch them ALL back on" = Some "all/on".
Proof.
  assert (Hfree : phrase_free (lower (str "Switch them ALL back on"))).
  { apply phrase_free_lookup. reflexivity. }
  split; [exact Hfree |].
  destruct (C3_fallback_patterns "Switch them ALL back on" Hfree)
    as (_ & _ & _ & H).
  apply (H "switch" ["them"] ["back"]).
  - now right.
  - discriminate.
  - repeat constructor; discriminate.
  - repeat constructor; discriminate.
  - reflexivity.
Defined.

(** C3 as worded fails: with no filler word between the verb and
    [all], a phrase-free utterance of the worded shape is not
    matched. *)
Lemma C3_counterexample :
  ~ (forall u,
        phrase_free (lower (str u)) ->
        worded_shape "on" (unstr (lower (str u))) ->
        _match_command u = Some "all/on").
Proof.
  intros H.
  assert (Hfree : phrase_free (lower (str "switch all the lights on"))).
  { apply phrase_free_lookup. reflexivity. }
  specialize (H "switch all the lights on" Hfree).
  assert (Hshape : worded_shape "on"
                     (unstr (lower (str "switch all the lights on")))).
  { exists "switch", [], ["the"; "lights"]. split; [now right | reflexivity]. }
  specialize (H Hshape). discriminate H.
Qed.

End FallbackClaims.

(* ------------------------------------------------------------------ *)
(** ** Invariants of the controller's operations                         *)
(* ------------------------------------------------------------------ *)

Section Invariants.

Variable P : event -> Prop.

Lemma continues_refl (w : world) : continues P w w.
Proof.
  repeat split; auto. exists []. repeat split; auto. intros [].
Qed.

Lemma continues_trans (w1 w2 w3 : world) :
  continues P w1 w2 -> continues P w2 w3 -> continues P w1 w3.
Proof.
  intros (Hip & Hout & Hclk & Hrun & evs & Htr & HP & Hint)
         (Hip' & Hout' & Hclk' & Hrun' & evs' & Htr' & HP' & Hint').
  repeat split; try congruence; try lia; auto.
  exists (evs' ++ evs). repeat split.
  - rewrite Htr', Htr. apply app_assoc.
  - apply Forall_app. now split.
  - intros H. apply in_app_or in H as [H | H]; auto.
Qed.

Lemma keeps_ret {A} (a : A) : keeps P (ret a).
Proof. intros w. apply continues_refl. Qed.

Lemma keeps_raise {A} (e : exn) : keeps P (@raise A e).
Proof. intros w. apply continues_refl. Qed.

Lemma keeps_ask {A} (f : world -> A) : keeps P (ask f).
Proof. intros w. apply continues_refl. Qed.

Lemma keeps_bind {A B} (m : M A) (f : A -> M B) :
  keeps P m -> (forall a, keeps P (f a)) -> keeps P (bind m f).
Proof.
  intros Hm Hf w. unfold bind. specialize (Hm w).
  destruct (m w) as [[e | a] w1]; simpl in *; [exact Hm |].
  apply (continues_trans w w1); [exact Hm | apply Hf].
Qed.

Lemma keeps_try {A} (m : M A) (h : exn -> M A) :
  keeps P m -> (forall e, keeps P (h e)) -> keeps P (try_except m h).
Proof.
  intros Hm Hh w. unfold try_except. specialize (Hm w).
  destruct (m w) as [[e | a] w1]; simpl in *; [| exact Hm].
  apply (continues_trans w w1); [exact Hm | apply Hh].
Qed.

Lemma keeps_emit (ev : event) :
  P ev -> ev <> Interrupt -> keeps P (emit ev).
Proof.
  intros Hev Hne w. repeat split; simpl; auto.
  exists [ev]. repeat split; auto.
  intros [H | []]. congruence.
Qed.

Hypothesis Hcalm : calm P.

Lemma keeps_logging (lvl : level) (fmt : string) (args : list arg) :
  keeps P (logging lvl fmt args).
Proof. apply keeps_emit; [apply Hcalm | discriminate]. Qed.

Lemma keeps_blocking (ev : event) :
  P ev -> ev <> Interrupt -> keeps P (blocking ev).
Proof.
  intros Hev Hne w. destruct Hcalm as [Hi Hl].
  unfold blocking, bind, emit, tick, ask, stop, logging, emit, set_running, ret.
  simpl. destruct (sigint (outside w) (clock w)); simpl.
  - repeat split; simpl; auto.
    exists [Log INFO "Shutting down" []; Interrupt; ev].
    repeat split; auto.
  - repeat split; simpl; auto.
    exists [ev]. repeat split; auto.
    intros [H | []]. congruence.
Qed.

Lemma keeps_sleep (secs : Q) : P (Sleep secs) -> keeps P (sleep secs).
Proof.
  intros H. unfold sleep. apply keeps_bind.
  - apply keeps_blocking; [exact H | discriminate].
  - intros. apply keeps_ret.
Qed.

Lemma keeps_raise_for_status (status : Z) : keeps P (raise_for_status status).
Proof.
  unfold raise_for_status.
  destruct ((400 <=? status) && (status <? 600))%Z;
    [apply keeps_raise | apply keeps_ret].
Qed.

Lemma keeps_session_get (url : string) :
  P (Get url DEFAULT_TIMEOUT) -> keeps P (session_get url).
Proof.
  intros H. unfold session_get. apply keeps_bind.
  - apply keeps_blocking; [exact H | discriminate].
  - intros n. apply keeps_bind; [apply keeps_ask |].
    intros [e | status]; [apply keeps_raise | apply keeps_ret].
Qed.

Lemma keeps_send_command (path : string) :
  allows_send P path -> keeps P (send_command path).
Proof.
  intros [Hs Hg]. unfold send_command.
  apply keeps_bind; [apply keeps_emit; [exact Hs | discriminate] |].
  intros _. apply keeps_bind; [apply keeps_ask |].
  intros ip. apply keeps_try.
  - apply keeps_bind; [apply keeps_logging |]. intros _.
    apply keeps_bind; [apply keeps_session_get, Hg |]. intros status.
    apply keeps_bind; [apply keeps_raise_for_status |]. intros _.
    apply keeps_bind; [apply keeps_logging |]. intros _. apply keeps_ret.
  - intros exc. destruct (is_RequestException exc); [| apply keeps_raise].
    apply keeps_bind; [apply keeps_logging |]. intros _. apply keeps_ret.
Qed.

Lemma keeps_adjust_ambient (duration : Q) :
  P (Calibrate duration) -> keeps P (adjust_ambient duration).
Proof.
  intros H. unfold adjust_ambient.
  apply keeps_bind; [apply keeps_logging |]. intros _.
  apply keeps_bind; [apply keeps_blocking; [exact H | discriminate] |].
  intros _. apply keeps_ret.
Qed.

Lemma keeps_recognize : P Recognize -> keeps P recognize.
Proof.
  intros H. unfold recognize. apply keeps_try.
  - apply keeps_bind.
    + unfold recognize_google. apply keeps_bind.
      * apply keeps_blocking; [exact H | discriminate].
      * intros n. apply keeps_bind; [apply keeps_ask |].
        intros [e | text]; [apply keeps_raise | apply keeps_ret].
    + intros text. apply keeps_bind; [apply keeps_logging |].
      intros _. apply keeps_ret.
  - intros exc. destruct exc; try apply keeps_raise;
      (apply keeps_bind; [apply keeps_logging | intros _; apply keeps_ret]).
Qed.

Lemma keeps_listen_once : P Listen -> P Recognize -> keeps P listen_once.
Proof.
  intros Hl Hr. unfold listen_once.
  apply keeps_bind; [apply keeps_blocking; [exact Hl | discriminate] |].
  intros _. now apply keeps_recognize.
Qed.

Lemma keeps_send_each (es : list string) :
  P (Sleep (1 # 10)) -> Forall (allows_send P) es -> keeps P (send_each es).
Proof.
  intros Hs. induction 1 as [|e es He Hes IH]; simpl.
  - apply keeps_ret.
  - apply keeps_bind; [now apply keeps_send_command |]. intros _.
    apply keeps_bind; [now apply keeps_sleep |]. intros _. exact IH.
Qed.

Hypothesis Hacting : allows_acting P.

Lemma keeps_dispatch (endpoint : string) : keeps P (dispatch endpoint).
Proof.
  destruct Hacting as (_ & Hsleep & _ & Hsend). unfold dispatch.
  destruct (String.eqb_spec endpoint "all/on") as [-> | Hon].
  - apply keeps_bind; [apply keeps_logging |]. intros _.
    apply keeps_send_each; [apply Hsleep |].
    repeat (apply Forall_cons; [apply Hsend; discriminate |]); apply Forall_nil.
  - destruct (String.eqb_spec endpoint "all/off") as [-> | Hoff].
    + apply keeps_bind; [apply keeps_logging |]. intros _.
      apply keeps_send_each; [apply Hsleep |].
      repeat (apply Forall_cons; [apply Hsend; discriminate |]); apply Forall_nil.
    + apply keeps_bind; [| intros; apply keeps_ret].
      apply keeps_send_command. now apply Hsend.
Qed.

Lemma keeps_act (pause : Q) (text : option string) : keeps P (act pause text).
Proof.
  destruct Hacting as (_ & Hsleep & Hmatch & _). unfold act.
  destruct (falsy text) eqn:E; [apply keeps_sleep, Hsleep |].
  apply keeps_bind.
  - apply keeps_emit; [| discriminate]. apply Hmatch.
    destruct text as [s|]; [| discriminate]. intros ->. discriminate.
  - intros _. destruct (falsy (_match_command _));
      [apply keeps_ret | apply keeps_dispatch].
Qed.

Hypothesis Hlisten : P Listen /\ P Recognize.

Lemma keeps_cycle (pause : Q) : keeps P (cycle pause).
Proof.
  unfold cycle. apply keeps_bind.
  - now apply keeps_listen_once.
  - intros text. apply keeps_act.
Qed.

Lemma keeps_loop (pause : Q) (fuel : nat) : keeps P (loop fuel pause).
Proof.
  induction fuel as [|fuel IH]; simpl; [apply keeps_ret |].
  apply keeps_bind; [apply keeps_ask |].
  intros [|]; [| apply keeps_ret].
  apply keeps_bind; [apply keeps_cycle | intros _; exact IH].
Qed.

Lemma keeps_run (fuel : nat) (ambient pause : Q) :
  P (Calibrate ambient) -> keeps P (run fuel ambient pause).
Proof.
  intros Hc. unfold run.
  apply keeps_bind; [apply keeps_ask |]. intros ip.
  apply keeps_bind; [apply keeps_logging |]. intros _.
  apply keeps_bind; [now apply keeps_adjust_ambient |]. intros _.
  apply keeps_bind; [apply keeps_logging |]. intros _.
  apply keeps_loop.
Qed.

End Invariants.

(* ------------------------------------------------------------------ *)
(** ** What one call does                                                *)
(* ------------------------------------------------------------------ *)

Section Outcomes.

Ltac run_ctl :=
  unfold send_command, session_get, raise_for_status, sleep, blocking,
    try_except, bind, emit, tick, ask, stop, logging, emit, set_running,
    ret, raise;
  simpl.

Lemma sleep_outcome (secs : Q) (w : world) :
  exists w' evs,
    sleep secs w = (inr tt, w')
    /\ trace w' = evs ++ trace w
    /\ calls (rev evs) = [Sleep secs]
    /\ outside w' = outside w.
Proof.
  run_ctl. destruct (sigint (outside w) (clock w)); simpl.
  - eexists _, [_; _; _]. repeat split.
  - eexists _, [_]. repeat split.
Qed.

Lemma error_status_test (status : Z) :
  ((400 <=? status) && (status <? 600))%Z = true <-> error_status status.
Proof. unfold error_status. rewrite andb_true_iff. lia. Qed.

Lemma send_command_outcome (path : string) (w : world) :
  polite (outside w) ->
  exists b w' evs,
    send_command path w = (inr b, w')
    /\ trace w' = evs ++ trace w
    /\ calls (rev evs) = [Send path]
    /\ gets (rev evs) = ["http://" ++ esp32_ip w ++ "/" ++ path]%string
    /\ outside w' = outside w
    /\ (b = true <-> exists status,
           replies (outside w) (clock w) = inr status
           /\ ~ error_status status)
    /\ (b = false -> exists exc,
           is_RequestException exc = true
           /\ In (Log WARNING "Failed to send command %s: %s"
                    [AStr path; AExn exc]) evs).
Proof.
  intros Hpolite. run_ctl.
  destruct (replies (outside w) (clock w)) as [exc | status] eqn:R.
  - pose proof (Hpolite _ _ R) as Hexc.
    destruct (sigint (outside w) (clock w)); simpl; rewrite R, Hexc; simpl.
    + exists false. eexists _, [_; _; _; _; _; _]. repeat split; try discriminate.
      * intros (status & [=] & _).
      * intros _. exists exc. split; [exact Hexc | simpl; auto].
    + exists false. eexists _, [_; _; _; _]. repeat split; try discriminate.
      * intros (status & [=] & _).
      * intros _. exists exc. split; [exact Hexc | simpl; auto].
  - destruct ((400 <=? status) && (status <? 600))%Z eqn:T.
    + apply error_status_test in T.
      destruct (sigint (outside w) (clock w)); simpl; rewrite R; simpl;
        rewrite (proj2 (error_status_test status) T); simpl.
      * exists false. eexists _, [_; _; _; _; _; _]. repeat split; try discriminate.
        -- intros (status' & [= <-] & Hno). contradiction.
        -- intros _. exists (HTTPError status). split; [reflexivity | simpl; auto].
      * exists false. eexists _, [_; _; _; _]. repeat split; try discriminate.
        -- intros (status' & [= <-] & Hno). contradiction.
        -- intros _. exists (HTTPError status). split; [reflexivity | simpl; auto].
    + assert (Hno : ~ error_status status).
      { rewrite <- error_status_test. congruence. }
      destruct (sigint (outside w) (clock w)); simpl; rewrite R; simpl;
        rewrite T; simpl.
      * exists true. eexists _, [_; _; _; _; _; _]. repeat split; try discriminate.
        intros _. now exists status.
      * exists true. eexists _, [_; _; _; _]. repeat split; try discriminate.
        intros _. now exists status.
Qed.


End Outcomes.

(* ------------------------------------------------------------------ *)
(** ** The dispatcher                                                    *)
(* ------------------------------------------------------------------ *)

Section DispatcherClaims.


End DispatcherClaims.

(* ------------------------------------------------------------------ *)
(** ** The control loop                                                  *)
(* ------------------------------------------------------------------ *)

Section LoopFacts.

Lemma anything_goes : forall ev : event, (fun _ => True) ev.
Proof. intros; exact I. Qed.

Lemma listen_once_outside (w w1 : world) (r : exn + option string) :
  listen_once w = (r, w1) -> outside w1 = outside w.
Proof.
  intros E.
  assert (H : keeps (fun _ => True) listen_once).
  { apply keeps_listen_once; try exact I. split; intros; exact I. }
  specialize (H w). rewrite E in H. apply H.
Qed.

Lemma falsy_some (s : string) : s <> "" -> falsy (Some s) = false.
Proof. destruct s; [congruence | reflexivity]. Qed.

Lemma falsy_cases (r : option string) :
  falsy r = true <-> r = None \/ r = Some "".
Proof.
  destruct r as [[|c s]|]; simpl; split; auto; try discriminate.
  - intros [H | H]; discriminate.
Qed.

Lemma cycle_after_listen (pause : Q) (w w1 : world) (r : option string) :
  listen_once w = (inr r, w1) -> cycle pause w = act pause r w1.
Proof. intros E. unfold cycle, bind. now rewrite E. Qed.



Lemma not_empty_match_acting : allows_acting not_empty_match.
Proof.
  unfold allows_acting, calm, allows_send, not_empty_match.
  repeat split; try discriminate; congruence.
Qed.

Lemma not_listen_acting : allows_acting not_listen.
Proof.
  unfold allows_acting, calm, allows_send, not_listen.
  repeat split; discriminate.
Qed.

Lemma quiet_calm : calm quiet.
Proof. split; intros; exact I. Qed.

End LoopFacts.

Section CompositeClaims.



End CompositeClaims.

Section StopFacts.

Lemma blocking_outcome (ev : event) (w : world) :
  exists w0 added,
    blocking ev w = (inr (clock w), w0)
    /\ trace w0 = added ++ ev :: trace w
    /\ outside w0 = outside w
    /\ (added = [] /\ running w0 = running w
        \/ added = [Log INFO "Shutting down" []; Interrupt]
           /\ running w0 = false).
Proof.
  unfold blocking, bind, emit, tick, ask, stop, logging, emit, set_running, ret.
  simpl. destruct (sigint (outside w) (clock w)); simpl.
  - eexists _, [_; _]. repeat split. right. split; reflexivity.
  - eexists _, []. repeat split. left. split; reflexivity.
Qed.

Lemma loop_step (fuel : nat) (pause : Q) (w : world) :
  loop (S fuel) pause w
  = if running w
    then match cycle pause w with
         | (inl e, w1) => (inl e, w1)
         | (inr _, w1) => loop fuel pause w1
         end
    else (inr true, w).
Proof.
  simpl. unfold bind at 1. unfold ask. destruct (running w); reflexivity.
Qed.

Lemma loop_stopped (fuel : nat) (pause : Q) (w : world) :
  running w = false -> snd (loop fuel pause w) = w.
Proof.
  intros H. destruct fuel; [reflexivity |]. now rewrite loop_step, H.
Qed.

(** A pass starts by listening and does not listen again; if the
    handler ran during it, the flag is down at its end. *)
Lemma cycle_shape (pause : Q) (w : world) :
  exists evs,
    trace (snd (cycle pause w)) = evs ++ Listen :: trace w
    /\ Forall not_listen evs
    /\ (In Interrupt evs -> running (snd (cycle pause w)) = false).
Proof.
  destruct (blocking_outcome Listen w) as (w0 & added & E & T & _ & Hadded).
  assert (Hrest : keeps not_listen (bind recognize (act pause))).
  { apply keeps_bind.
    - apply keeps_recognize; [apply not_listen_acting | discriminate].
    - intros r. apply keeps_act; apply not_listen_acting. }
  assert (Hcycle : cycle pause w = bind recognize (act pause) w0).
  { unfold cycle, listen_once, bind at 1 2. rewrite E. unfold bind.
    destruct (recognize w0) as [[e | r] w1]; reflexivity. }
  rewrite Hcycle.
  destruct (Hrest w0) as (_ & _ & _ & Hrun & evs & T' & HP & Hint).
  exists (evs ++ added). repeat split.
  - rewrite T', T. now rewrite <- app_assoc.
  - apply Forall_app. split; [exact HP |].
    destruct Hadded as [[-> _] | [-> _]]; repeat constructor; discriminate.
  - intros H. apply in_app_or in H as [H | H]; [now apply Hint |].
    apply Hrun. destruct Hadded as [[-> _] | [_ Hdown]]; [destruct H | exact Hdown].
Qed.

Lemma settled_nil : settled [].
Proof. intros [|x later] earlier H; discriminate. Qed.

Lemma settled_cycle (evs : list event) :
  Forall not_listen evs -> settled (evs ++ [Listen]).
Proof.
  intros HP later earlier E Hin.
  apply app_eq_app in E as [l [[-> E] | [-> E]]].
  - apply Forall_app in HP as [HP _].
    rewrite Forall_forall in HP. now apply (HP Listen Hin).
  - destruct l as [|x [|y l]]; simpl in E; discriminate.
Qed.

Lemma settled_app (a b : list event) :
  settled a -> ~ In Interrupt b -> settled (a ++ b).
Proof.
  intros Ha Hb later earlier E.
  apply app_eq_app in E as [l [[E1 E2] | [E1 E2]]].
  - destruct l as [|x l]; simpl in E2.
    + exfalso. apply Hb. rewrite <- E2. now left.
    + injection E2 as <- E2. apply (Ha later l). exact E1.
  - exfalso. apply Hb. rewrite E2. apply in_or_app. right. now left.
Qed.

Lemma loop_settled (pause : Q) (fuel : nat) :
  forall w,
    exists evs,
      trace (snd (loop fuel pause w)) = evs ++ trace w /\ settled evs.
Proof.
  induction fuel as [|fuel IH]; intros w.
  - exists []. split; [reflexivity | apply settled_nil].
  - rewrite loop_step. destruct (running w) eqn:Hw.
    2: { exists []. split; [reflexivity | apply settled_nil]. }
    destruct (cycle_shape pause w) as (evs & T & HP & Hint).
    destruct (cycle pause w) as [[e | u] w1]; simpl in T, Hint.
    + exists (evs ++ [Listen]). split; [| now apply settled_cycle].
      simpl. rewrite T. now rewrite <- app_assoc.
    + destruct (running w1) eqn:Hw1.
      * destruct (IH w1) as (evs2 & T2 & S2).
        exists (evs2 ++ evs ++ [Listen]). split.
        -- rewrite T2, T. now rewrite <- !app_assoc.
        -- apply settled_app; [exact S2 |].
           intros H. apply in_app_or in H as [H | [H | []]]; [| discriminate].
           apply Hint in H. congruence.
      * rewrite (loop_stopped fuel pause w1 Hw1).
        exists (evs ++ [Listen]). split; [| now apply settled_cycle].
        rewrite T. now rewrite <- app_assoc.
Qed.

Lemma always_allowed : allows_acting (fun _ => True).
Proof. repeat split. Qed.

End StopFacts.

Section RunFlagClaims.

(** C6. The run flag is true after [__init__] and false after
    [stop]. No operation raises it again: from a world where it is
    false, [stop], [send_command], [adjust_ambient], [listen_once]
    and [run] all end with it false. A pass that ends with the flag
    down is the last one: the loop, which reads the flag before each
    pass, returns without a further event. In any run of the loop,
    nothing listens after the handler has called [stop]. *)
Theorem C6_run_flag :
  (forall ip e, running (init ip e) = true)
  /\ (forall w, fst (stop w) = inr tt /\ running (snd (stop w)) = false)
  /\ (forall w,
        running w = false ->
        running (snd (stop w)) = false
        /\ (forall path, running (snd (send_command path w)) = false)
        /\ (forall duration, running (snd (adjust_ambient duration w)) = false)
        /\ running (snd (listen_once w)) = false
        /\ (forall fuel ambient pause,
              running (snd (run fuel ambient pause w)) = false))
  /\ (forall fuel pause w,
        running w = false -> loop (S fuel) pause w = (inr true, w))
  /\ (forall fuel pause w w1,
        running w = true ->
        cycle pause w = (inr tt, w1) ->
        running w1 = false ->
        loop (S (S fuel)) pause w = (inr true, w1))
  /\ (forall fuel pause w,
        exists evs,
          trace (snd (loop fuel pause w)) = evs ++ trace w /\ settled evs).
Proof.
  split; [reflexivity |]. split; [intros w; split; reflexivity |].
  split; [| split; [| split]].
  - intros w Hdown. split; [reflexivity |].
    pose proof always_allowed as Hany.
    assert (Hcalm : calm (fun _ : event => True)) by apply Hany.
    split; [| split; [| split]].
    + intros path.
      apply (keeps_send_command (fun _ => True) Hcalm path); [| exact Hdown].
      split; intros; exact I.
    + intros duration.
      apply (keeps_adjust_ambient (fun _ => True) Hcalm duration I); exact Hdown.
    + apply (keeps_listen_once (fun _ => True) Hcalm I I); exact Hdown.
    + intros fuel ambient pause.
      apply (keeps_run (fun _ => True) Hcalm Hany (conj I I) fuel ambient pause I);
        exact Hdown.
  - intros fuel pause w Hdown. now rewrite loop_step, Hdown.
  - intros fuel pause w w1 Hup Hcycle Hdown.
    rewrite loop_step, Hup, Hcycle. now rewrite loop_step, Hdown.
  - intros fuel pause w. apply loop_settled.
Qed.

Lemma C6_run_flag_witness :
  running (snd (stop (init DEFAULT_ESP32_IP silent_env))) = false
  /\ running (snd (run 5 DEFAULT_AMBIENT_DURATION DEFAULT_PAUSE
                    (snd (stop (init DEFAULT_ESP32_IP silent_env))))) = false.
Proof.
  destruct C6_run_flag as (_ & _ & H & _).
  split; [reflexivity |].
  apply (H (snd (stop (init DEFAULT_ESP32_IP silent_env))) eq_refl).
Defined.

End RunFlagClaims.

Section RecognitionMissClaims.

(** C10. When [listen_once] answers [None] or the empty string, the
    pass is that listening followed by one sleep of the pause
    duration: no event of the pass is a call of the matcher, of the
    dispatcher or a request; the loop goes on from there, and every
    pass it makes begins by listening. No run of
    the controller ever calls the matcher on the empty text, while
    the matcher itself accepts it. *)
Theorem C10_recognition_miss :
  (forall pause w r w1,
      listen_once w = (inr r, w1) ->
      r = None \/ r = Some "" ->
      cycle pause w = sleep pause w1
      /\ (exists w2 added,
            sleep pause w1 = (inr tt, w2)
            /\ trace w2 = added ++ Sleep pause :: trace w1
            /\ Forall quiet added)
      /\ (exists evs, trace w1 = evs ++ trace w /\ Forall quiet evs)
      /\ (forall fuel,
            running w = true ->
            loop (S fuel) pause w = loop fuel pause (snd (sleep pause w1))))
  /\ (forall pause w,
        exists evs, trace (snd (cycle pause w)) = evs ++ Listen :: trace w)
  /\ (forall fuel ambient pause w,
        exists evs,
          trace (snd (run fuel ambient pause w)) = evs ++ trace w
          /\ Forall not_empty_match evs)
  /\ _match_command "" = None.
Proof.
  split; [| split; [| split; [| reflexivity]]].
  - intros pause w r w1 Hlisten Hr.
    assert (Hcycle : cycle pause w = sleep pause w1).
    { rewrite (cycle_after_listen pause w w1 r Hlisten). unfold act.
      now rewrite (proj2 (falsy_cases r) Hr). }
    split; [exact Hcycle |]. split; [| split].
    + unfold sleep, bind at 1.
      destruct (blocking_outcome (Sleep pause) w1) as (w2 & added & E & T & _ & Hadded).
      exists w2, added. rewrite E. repeat split; [exact T |].
      destruct Hadded as [[-> _] | [-> _]]; repeat constructor.
    + assert (H : keeps quiet listen_once).
      { apply keeps_listen_once; [apply quiet_calm | exact I | exact I]. }
      specialize (H w). rewrite Hlisten in H.
      destruct H as (_ & _ & _ & _ & evs & T & HP & _). now exists evs.
    + intros fuel Hup. rewrite loop_step, Hup, Hcycle.
      destruct (sleep_outcome pause w1) as (w2 & evs & E & _). now rewrite E.
  - intros pause w.
    destruct (cycle_shape pause w) as (evs & T & _). now exists evs.
  - intros fuel ambient pause w.
    assert (H : keeps not_empty_match (run fuel ambient pause)).
    { apply keeps_run.
      - apply not_empty_match_acting.
      - apply not_empty_match_acting.
      - split; discriminate.
      - discriminate. }
    destruct (H w) as (_ & _ & _ & _ & evs & T & HP & _).
    now exists evs.
Qed.

Lemma C10_recognition_miss_witness :
  listen_once (init DEFAULT_ESP32_IP silent_env)
  = (inr None, snd (listen_once (init DEFAULT_ESP32_IP silent_env)))
  /\ cycle DEFAULT_PAUSE (init DEFAULT_ESP32_IP silent_env)
     = sleep DEFAULT_PAUSE (snd (listen_once (init DEFAULT_ESP32_IP silent_env))).
Proof.
  split; [reflexivity |].
  destruct C10_recognition_miss as [H _].
  apply (H DEFAULT_PAUSE (init DEFAULT_ESP32_IP silent_env) None
           (snd (listen_once (init DEFAULT_ESP32_IP silent_env)))
           eq_refl (or_introl eq_refl)).
Defined.

End RecognitionMissClaims.

(* ------------------------------------------------------------------ *)
(** ** More about the matcher                                            *)
(* ------------------------------------------------------------------ *)

Import Entry MoreProps.

Section MatcherExtras.

Lemma lower_char_idem (c : ascii) : lower_char (lower_char c) = lower_char c.
Proof. destruct c as [[] [] [] [] [] [] [] []]; reflexivity. Qed.

Lemma lower_idem (t : text) : lower (lower t) = lower t.
Proof.
  unfold lower. rewrite map_map. apply map_ext. exact lower_char_idem.
Qed.

Lemma str_unstr (t : text) : str (unstr t) = t.
Proof. apply list_ascii_of_string_of_list_ascii. Qed.

Lemma lower_app (a b : text) : lower (a ++ b) = lower a ++ lower b.
Proof. apply map_app. Qed.

Lemma occurs_inside (p t pre post : text) :
  occurs p t -> occurs p (pre ++ t ++ post).
Proof.
  intros (a & b & ->). exists (pre ++ a), (b ++ post).
  now rewrite <- !app_assoc.
Qed.

Lemma occurs_trans (p q t : text) : occurs p q -> occurs q t -> occurs p t.
Proof. intros Hpq (a & b & ->). now apply occurs_inside. Qed.

Lemma table_lookup_found (table : list (list string * string)) (t : text) :
  forall endpoint,
    table_lookup table t = Some endpoint ->
    exists i e,
      nth_error table i = Some e /\ snd e = endpoint
      /\ entry_hits t (fst e) = true
      /\ forall k ek, k < i -> nth_error table k = Some ek ->
                      entry_hits t (fst ek) = false.
Proof.
  induction table as [|[phrases ep] tbl IH]; intros endpoint; simpl; [discriminate |].
  destruct (entry_hits t phrases) eqn:E.
  - intros [= <-]. exists 0, (phrases, ep). repeat split; auto. intros; lia.
  - intros H. destruct (IH endpoint H) as (i & e & Hi & He & Hhit & Hfirst).
    exists (S i), e. repeat split; auto.
    intros [|k] ek Hk Hn; simpl in Hn.
    + injection Hn as <-. exact E.
    + apply (Hfirst k ek); [lia | exact Hn].
Qed.

(** X1. The matcher is blind to letter case: lowercasing the input
    beforehand, as [listen_once] does, changes nothing, and two inputs
    with the same lowercase form get the same answer. *)
Theorem X1_case_blind :
  (forall u, _match_command (lower_str u) = _match_command u)
  /\ (forall u v,
        lower (str u) = lower (str v) -> _match_command u = _match_command v).
Proof.
  split.
  - intros u. unfold _match_command, match_text, lower_str.
    now rewrite str_unstr, lower_idem.
  - intros u v E. unfold _match_command, match_text. now rewrite E.
Qed.

Lemma X1_case_blind_witness :
  _match_command "Turn ON the Fan" = _match_command "tURN on THE fAN".
Proof.
  destruct X1_case_blind as [_ H].
  apply (H "Turn ON the Fan" "tURN on THE fAN"). reflexivity.
Defined.

(** X2. The matcher answers [None] exactly when no phrase of the table
    occurs in the lowercased input and neither fallback pattern finds
    its shape there. *)
Theorem X2_none_exactly :
  forall u,
    _match_command u = None
    <-> phrase_free (lower (str u))
        /\ ~ pattern_shape "on" (lower (str u))
        /\ ~ pattern_shape "off" (lower (str u)).
Proof.
  intros u. unfold _match_command, match_text.
  rewrite phrase_free_lookup.
  rewrite <- (search_all_pattern_false "on") by now left.
  rewrite <- (search_all_pattern_false "off") by now right.
  destruct (table_lookup command_map (lower (str u))) as [ep|].
  - split; [discriminate | intros [[=] _]].
  - unfold fallback.
    destruct (search (all_pattern "on") (lower (str u)));
      [split; [discriminate | intros (_ & [=] & _)] |].
    destruct (search (all_pattern "off") (lower (str u)));
      [split; [discriminate | intros (_ & _ & [=])] |].
    split; auto.
Qed.

Lemma X2_none_exactly_witness :
  phrase_free (lower (str "good morning"))
  /\ ~ pattern_shape "on" (lower (str "good morning")).
Proof.
  destruct (proj1 (X2_none_exactly "good morning") eq_refl) as (H1 & H2 & _).
  split; [exact H1 | exact H2].
Defined.

(** X3. Every answer has a cause in the lowercased input: an endpoint
    comes from the first entry of the table that hits, which bears it,
    or else the table is silent and the answer is [all/on] with the
    shape of the first pattern present, or [all/off] with the shape of
    the second present and that of the first absent. So the endpoint of
    a single device is answered only when one of its phrases occurs. *)
Theorem X3_answers_have_causes :
  forall u endpoint,
    _match_command u = Some endpoint ->
    ((exists i e, earliest (lower (str u)) i e /\ snd e = endpoint)
     \/ (phrase_free (lower (str u))
         /\ (endpoint = "all/on" /\ pattern_shape "on" (lower (str u))
             \/ endpoint = "all/off"
                /\ ~ pattern_shape "on" (lower (str u))
                /\ pattern_shape "off" (lower (str u)))))
    /\ (endpoint <> "all/on" -> endpoint <> "all/off" ->
        exists phrases p,
          In (phrases, endpoint) command_map /\ In p phrases
          /\ occurs (str p) (lower (str u))).
Proof.
  intros u endpoint H.
  assert (Hcause :
            (exists i e, earliest (lower (str u)) i e /\ snd e = endpoint)
            \/ (phrase_free (lower (str u))
                /\ (endpoint = "all/on" /\ pattern_shape "on" (lower (str u))
                    \/ endpoint = "all/off"
                       /\ ~ pattern_shape "on" (lower (str u))
                       /\ pattern_shape "off" (lower (str u))))).
  { unfold _match_command, match_text in H.
    destruct (table_lookup command_map (lower (str u))) as [ep|] eqn:E.
    - left. injection H as <-.
      destruct (table_lookup_found _ _ _ E) as (i & e & Hi & He & Hhit & Hfirst).
      exists i, e. split; [| exact He].
      split; [exact Hi |]. split; [now apply hits_true |].
      intros k ek Hk Hn. apply hits_false. now apply (Hfirst k ek).
    - right. split; [now apply phrase_free_lookup |].
      unfold fallback in H.
      destruct (search (all_pattern "on") (lower (str u))) eqn:Son.
      + left. injection H as <-. split; [reflexivity |].
        apply search_all_pattern; [now left | exact Son].
      + destruct (search (all_pattern "off") (lower (str u))) eqn:Soff;
          [| discriminate].
        right. injection H as <-. split; [reflexivity |]. split.
        * apply search_all_pattern_false; [now left | exact Son].
        * apply search_all_pattern; [now right | exact Soff]. }
  split; [exact Hcause |].
  intros Hon Hoff.
  destruct Hcause as [(i & [phrases ep] & (Hi & (p & Hp & Hocc) & _) & He)
                     | (_ & [[-> _] | [-> _]])]; try congruence.
  simpl in He. subst ep. exists phrases, p.
  split; [now apply (nth_error_In _ i) | split; assumption].
Qed.

Lemma X3_answers_have_causes_witness :
  exists phrases p,
    In (phrases, "fan/off") command_map /\ In p phrases
    /\ occurs (str p) (lower (str "Fan OFF, thanks")).
Proof.
  destruct (X3_answers_have_causes "Fan OFF, thanks" "fan/off" eq_refl)
    as [_ H].
  apply H; discriminate.
Defined.

Lemma phrases_answer_alone :
  Forall (fun e =>
            Forall (fun p => table_lookup command_map (str p) = Some (snd e))
                   (fst e))
         command_map.
Proof. repeat constructor. Qed.

(** X4. No phrase of the table is shadowed: an input whose lowercase
    form is a phrase of the table gets the endpoint of that phrase's
    entry. *)
Theorem X4_phrases_answer_alone :
  forall phrases endpoint p u,
    In (phrases, endpoint) command_map ->
    In p phrases ->
    lower (str u) = str p ->
    _match_command u = Some endpoint.
Proof.
  intros phrases endpoint p u He Hp E.
  pose proof phrases_answer_alone as H. rewrite Forall_forall in H.
  specialize (H _ He). simpl in H. rewrite Forall_forall in H.
  specialize (H p Hp).
  unfold _match_command. apply match_text_hit. now rewrite E.
Qed.

Lemma X4_phrases_answer_alone_witness :
  _match_command "Turn Off LED" = Some "led/off".
Proof.
  apply (X4_phrases_answer_alone
           ["led off"; "turn off led"; "turn led off"] "led/off" "turn off led").
  - simpl. auto.
  - simpl. auto.
  - reflexivity.
Defined.

Lemma entry_hits_drop_middle (t : text) (a b c : string) :
  occurs (str c) (str b) ->
  entry_hits t [a; b; c] = entry_hits t [a; c].
Proof.
  intros Hcb. unfold entry_hits. simpl.
  destruct (contains (str b) t) eqn:Eb; [| now rewrite orb_false_l].
  apply contains_spec in Eb.
  rewrite (proj2 (contains_spec (str c) t) (occurs_trans _ _ _ Hcb Eb)).
  now rewrite !orb_true_r.
Qed.

Lemma entry_hits_drop_last (t : text) (a b c : string) :
  occurs (str a) (str c) ->
  entry_hits t [a; b; c] = entry_hits t [a; b].
Proof.
  intros Hac. unfold entry_hits. simpl.
  destruct (contains (str c) t) eqn:Ec; [| reflexivity].
  apply contains_spec in Ec.
  now rewrite (proj2 (contains_spec (str a) t) (occurs_trans _ _ _ Hac Ec)).
Qed.

(** X5. Six phrases of the table are never needed: each of
    [turn all on], [turn all off], [turn led on], [turn led off],
    [turn light on], [turn light off] holds another phrase of its own
    entry, and the table without them gives the same answer on every
    text. *)
Theorem X5_redundant_phrases :
  forall t,
    table_lookup command_map t = table_lookup command_map_reduced t
    /\ match_text t
       = match table_lookup command_map_reduced (lower t) with
         | Some endpoint => Some endpoint
         | None => fallback (lower t)
         end.
Proof.
  assert (H : forall t,
             table_lookup command_map t = table_lookup command_map_reduced t).
  { intros t. unfold command_map, command_map_reduced, table_lookup.
    rewrite (entry_hits_drop_middle t "turn everything on" "turn all on" "all on")
      by (now exists (str "turn "), []).
    rewrite (entry_hits_drop_middle t "turn everything off" "turn all off" "all off")
      by (now exists (str "turn "), []).
    rewrite (entry_hits_drop_last t "led on" "turn on led" "turn led on")
      by (now exists (str "turn "), []).
    rewrite (entry_hits_drop_last t "led off" "turn off led" "turn led off")
      by (now exists (str "turn "), []).
    rewrite (entry_hits_drop_last t "light on" "turn on light" "turn light on")
      by (now exists (str "turn "), []).
    rewrite (entry_hits_drop_last t "light off" "turn off light" "turn light off")
      by (now exists (str "turn "), []).
    reflexivity. }
  intros t. split; [apply H |].
  unfold match_text. now rewrite H.
Qed.

(** X6. Words around an utterance never lose a match of the table:
    when the first entry that hits a text stands at index [i], the
    text with anything before and after it is answered from an entry
    at or before [i]. *)
Theorem X6_context_keeps_match :
  forall pre t post i e,
    earliest (lower t) i e ->
    exists k ek,
      k <= i
      /\ earliest (lower (pre ++ t ++ post)) k ek
      /\ match_text (pre ++ t ++ post) = Some (snd ek).
Proof.
  intros pre t post i e (Hi & (p & Hp & Hocc) & _).
  assert (Hhit : hits (lower (pre ++ t ++ post)) e).
  { exists p. split; [exact Hp |]. rewrite !lower_app. now apply occurs_inside. }
  destruct (earliest_exists (pre ++ t ++ post) i e Hi Hhit) as (k & ek & Hk & Hfirst).
  exists k, ek. split; [exact Hk |]. split; [exact Hfirst |].
  exact (earliest_decides _ k ek Hfirst).
Qed.

Lemma X6_context_keeps_match_witness :
  exists k ek,
    k <= 4
    /\ earliest (lower (str "fan off and " ++ str "light on" ++ str " all off")) k ek
    /\ match_text (str "fan off and " ++ str "light on" ++ str " all off")
       = Some (snd ek).
Proof.
  apply (X6_context_keeps_match (str "fan off and ") (str "light on")
           (str " all off") 4
           (["light on"; "turn on light"; "turn light on"], "light/on")).
  split; [reflexivity |]. split; [apply hits_true; reflexivity |].
  intros k ek Hk Hn. apply hits_false.
  do 4 (destruct k as [|k]; [injection Hn as <-; reflexivity |]). lia.
Defined.

End MatcherExtras.

(* ------------------------------------------------------------------ *)
(** ** Relations every step of the controller keeps                      *)
(* ------------------------------------------------------------------ *)

Section Stepwise.

Variable R : world -> world -> Prop.

Hypothesis R_refl : forall w, R w w.
Hypothesis R_trans : forall a b c, R a b -> R b c -> R a c.
Hypothesis R_log :
  forall lvl fmt args w, R w (snd (logging lvl fmt args w)).
Hypothesis R_match :
  forall s w, s <> "" -> R w (snd (emit (Match s) w)).
Hypothesis R_send :
  forall path w, In path concrete_endpoints -> R w (snd (emit (Send path) w)).
Hypothesis R_get :
  forall path w,
    In path concrete_endpoints ->
    R w (snd (blocking (Get (url_of (esp32_ip w) path) DEFAULT_TIMEOUT) w)).
Hypothesis R_wait : forall ev w, waiting ev -> R w (snd (blocking ev w)).

Lemma step_bind {A B} (m : M A) (f : A -> M B) (w : world) :
  R w (snd (m w)) ->
  (forall a w1, m w = (inr a, w1) -> R w1 (snd (f a w1))) ->
  R w (snd (bind m f w)).
Proof.
  intros Hm Hf. unfold bind.
  destruct (m w) as [[e | a] w1] eqn:E; simpl in *; [exact Hm |].
  apply (R_trans w w1); [exact Hm | now apply Hf].
Qed.

Lemma step_try {A} (m : M A) (h : exn -> M A) (w : world) :
  R w (snd (m w)) ->
  (forall e w1, R w1 (snd (h e w1))) ->
  R w (snd (try_except m h w)).
Proof.
  intros Hm Hh. unfold try_except.
  destruct (m w) as [[e | a] w1]; simpl in *; [| exact Hm].
  apply (R_trans w w1); [exact Hm | apply Hh].
Qed.

Lemma respects_bind {A B} (m : M A) (f : A -> M B) :
  respects R m -> (forall a, respects R (f a)) -> respects R (bind m f).
Proof. intros Hm Hf w. apply step_bind; [apply Hm | intros; apply Hf]. Qed.

Lemma respects_ret {A} (a : A) : respects R (ret a).
Proof. intros w. apply R_refl. Qed.

Lemma respects_raise {A} (e : exn) : respects R (@raise A e).
Proof. intros w. apply R_refl. Qed.

Lemma respects_ask {A} (f : world -> A) : respects R (ask f).
Proof. intros w. apply R_refl. Qed.

Lemma respects_logging (lvl : level) (fmt : string) (args : list arg) :
  respects R (logging lvl fmt args).
Proof. intros w. apply R_log. Qed.

Lemma respects_wait (ev : event) : waiting ev -> respects R (blocking ev).
Proof. intros H w. now apply R_wait. Qed.

Lemma respects_sleep (secs : Q) : respects R (sleep secs).
Proof.
  unfold sleep. apply respects_bind; [now apply respects_wait |].
  intros _. apply respects_ret.
Qed.

Lemma step_session_get (path : string) (w : world) :
  In path concrete_endpoints ->
  R w (snd (session_get (url_of (esp32_ip w) path) w)).
Proof.
  intros Hp. unfold session_get. apply step_bind; [now apply R_get |].
  intros n w1 _. apply respects_bind; [apply respects_ask |].
  intros [e | status]; [apply respects_raise | apply respects_ret].
Qed.

Lemma respects_raise_for_status (status : Z) :
  respects R (raise_for_status status).
Proof.
  unfold raise_for_status.
  destruct ((400 <=? status) && (status <? 600))%Z;
    [apply respects_raise | apply respects_ret].
Qed.

Lemma respects_send_command (path : string) :
  In path concrete_endpoints -> respects R (send_command path).
Proof.
  intros Hp w. unfold send_command.
  apply step_bind; [now apply R_send |].
  intros [] w1 _. apply step_bind; [apply R_refl |].
  intros host w2 E. unfold ask in E. injection E as <- <-.
  apply step_try.
  - apply step_bind; [apply R_log |]. intros [] w2 E.
    unfold logging, emit in E. injection E as <-.
    apply step_bind; [exact (step_session_get path _ Hp) |].
    intros status w3 _. apply respects_bind; [apply respects_raise_for_status |].
    intros _. apply respects_bind; [apply respects_logging |].
    intros _. apply respects_ret.
  - intros exc w2. destruct (is_RequestException exc); [| apply R_refl].
    apply respects_bind; [apply respects_logging | intros _; apply respects_ret].
Qed.

Lemma respects_send_each (es : list string) :
  Forall (fun e => In e concrete_endpoints) es -> respects R (send_each es).
Proof.
  induction 1 as [|e es He Hes IH]; simpl; [apply respects_ret |].
  apply respects_bind; [now apply respects_send_command |]. intros _.
  apply respects_bind; [apply respects_sleep |]. intros _. exact IH.
Qed.

Lemma dispatch_single (endpoint : string) :
  endpoint <> "all/on" -> endpoint <> "all/off" ->
  dispatch endpoint = (send_command endpoint ;; ret tt).
Proof.
  intros Hon Hoff. unfold dispatch.
  destruct (String.eqb_spec endpoint "all/on"); [contradiction |].
  destruct (String.eqb_spec endpoint "all/off"); [contradiction |].
  reflexivity.
Qed.

Lemma respects_dispatch (endpoint : string) :
  In endpoint matcher_endpoints -> respects R (dispatch endpoint).
Proof.
  intros H. simpl in H.
  destruct H as [<- | [<- | H]].
  - change (dispatch "all/on")
      with (logging INFO "Activating all devices" [] ;; send_each all_on_members).
    apply respects_bind; [apply respects_logging |]. intros _.
    apply respects_send_each. rewrite Forall_forall. intros e He.
    apply in_or_app. now left.
  - change (dispatch "all/off")
      with (logging INFO "Deactivating all devices" [] ;; send_each all_off_members).
    apply respects_bind; [apply respects_logging |]. intros _.
    apply respects_send_each. rewrite Forall_forall. intros e He.
    apply in_or_app. now right.
  - assert (Hc : In endpoint concrete_endpoints).
    { simpl. intuition (subst; auto 10). }
    rewrite dispatch_single
      by (intros ->; simpl in H; intuition discriminate).
    apply respects_bind; [now apply respects_send_command |].
    intros _. apply respects_ret.
Qed.

Lemma respects_act (pause : Q) (text : option string) :
  respects R (act pause text).
Proof.
  unfold act. destruct (falsy text) eqn:E; [apply respects_sleep |].
  apply respects_bind.
  - intros w. apply R_match.
    destruct text as [s|]; [| discriminate]. intros ->. discriminate.
  - intros _. pose proof (match_text_range
                            (str match text with Some s => s | None => "" end))
      as Hrange.
    fold (_match_command match text with Some s => s | None => "" end) in Hrange.
    destruct (_match_command _) as [ep|]; simpl; [| apply respects_ret].
    destruct ep; [apply respects_ret | now apply respects_dispatch].
Qed.

Lemma respects_recognize : respects R recognize.
Proof.
  unfold recognize. intros w. apply step_try.
  - apply respects_bind.
    + unfold recognize_google. apply respects_bind.
      * now apply respects_wait.
      * intros n. apply respects_bind; [apply respects_ask |].
        intros [e | text]; [apply respects_raise | apply respects_ret].
    + intros text. apply respects_bind; [apply respects_logging |].
      intros _. apply respects_ret.
  - intros exc w1. destruct exc; try apply R_refl;
      (apply respects_bind; [apply respects_logging | intros _; apply respects_ret]).
Qed.

Lemma respects_listen_once : respects R listen_once.
Proof.
  unfold listen_once. apply respects_bind; [now apply respects_wait |].
  intros _. apply respects_recognize.
Qed.

Lemma respects_cycle (pause : Q) : respects R (cycle pause).
Proof.
  unfold cycle. apply respects_bind; [apply respects_listen_once |].
  intros text. apply respects_act.
Qed.

Lemma respects_loop (pause : Q) (fuel : nat) : respects R (loop fuel pause).
Proof.
  induction fuel as [|fuel IH]; simpl; [apply respects_ret |].
  apply respects_bind; [apply respects_ask |].
  intros [|]; [| apply respects_ret].
  apply respects_bind; [apply respects_cycle | intros _; exact IH].
Qed.

Lemma respects_adjust_ambient (duration : Q) :
  respects R (adjust_ambient duration).
Proof.
  unfold adjust_ambient. apply respects_bind; [apply respects_logging |].
  intros _. apply respects_bind; [now apply respects_wait |].
  intros _. apply respects_ret.
Qed.

Lemma respects_run (fuel : nat) (ambient pause : Q) :
  respects R (run fuel ambient pause).
Proof.
  unfold run. apply respects_bind; [apply respects_ask |]. intros host.
  apply respects_bind; [apply respects_logging |]. intros _.
  apply respects_bind; [apply respects_adjust_ambient |]. intros _.
  apply respects_bind; [apply respects_logging |]. intros _.
  apply respects_loop.
Qed.

End Stepwise.

(* ------------------------------------------------------------------ *)
(** ** Requests in order, signals obeyed                                 *)
(* ------------------------------------------------------------------ *)

Section StepwiseInstances.

Lemma orderly_refl (w : world) : orderly w w.
Proof. split; [reflexivity |]. exists []. split; [reflexivity | constructor]. Qed.

Lemma orderly_trans (a b c : world) : orderly a b -> orderly b c -> orderly a c.
Proof.
  intros (Hab & evs & T & HP) (Hbc & evs' & T' & HP').
  split; [congruence |]. exists (evs' ++ evs). split.
  - rewrite T', T. apply app_assoc.
  - apply Forall_app. split; [| exact HP]. now rewrite <- Hab.
Qed.

Lemma orderly_emit (ev : event) (w : world) :
  proper (esp32_ip w) ev -> orderly w (snd (emit ev w)).
Proof.
  intros H. split; [reflexivity |]. exists [ev]. split; [reflexivity |].
  now constructor.
Qed.

Lemma orderly_blocking (ev : event) (w : world) :
  proper (esp32_ip w) ev -> orderly w (snd (blocking ev w)).
Proof.
  intros H.
  unfold blocking, bind, emit, tick, ask, stop, logging, emit, set_running, ret.
  simpl. destruct (sigint (outside w) (clock w)); simpl.
  - split; [reflexivity |].
    exists [Log INFO "Shutting down" []; Interrupt; ev]. split; [reflexivity |].
    repeat constructor. exact H.
  - split; [reflexivity |]. exists [ev]. split; [reflexivity |].
    now constructor.
Qed.

Lemma orderly_run (fuel : nat) (ambient pause : Q) (w : world) :
  orderly w (snd (run fuel ambient pause w)).
Proof.
  apply (respects_run orderly orderly_refl orderly_trans).
  - intros lvl fmt args w0. now apply orderly_emit.
  - intros s w0 _. now apply orderly_emit.
  - intros path w0 Hp. now apply orderly_emit.
  - intros path w0 Hp. apply orderly_blocking. simpl.
    split; [reflexivity |]. now exists path.
  - intros ev w0 Hev. apply orderly_blocking. destruct ev; simpl in *; tauto.
Qed.

Lemma tracked_refl (w : world) : tracked w w.
Proof. repeat split; auto. intros n Hn. lia. Qed.

Lemma tracked_trans (a b c : world) : tracked a b -> tracked b c -> tracked a c.
Proof.
  intros (Hip & Hout & Hclk & Hrun & Hsig) (Hip' & Hout' & Hclk' & Hrun' & Hsig').
  repeat split; try congruence; try lia; auto.
  intros n Hn Hs.
  destruct (Nat.lt_ge_cases n (clock b)) as [Hlt | Hge].
  - apply Hrun', (Hsig n); [lia | exact Hs].
  - apply (Hsig' n); [lia |]. now rewrite Hout.
Qed.

Lemma tracked_emit (ev : event) (w : world) : tracked w (snd (emit ev w)).
Proof. repeat split; auto. simpl. intros n Hn. lia. Qed.

Lemma tracked_blocking (ev : event) (w : world) :
  tracked w (snd (blocking ev w))
  /\ clock (snd (blocking ev w)) = S (clock w).
Proof.
  unfold blocking, bind, emit, tick, ask, stop, logging, emit, set_running, ret.
  simpl. destruct (sigint (outside w) (clock w)) eqn:E; simpl.
  - repeat split; simpl; auto.
  - repeat split; simpl; auto.
    intros n Hn Hs. assert (n = clock w) by lia. subst n. congruence.
Qed.

Lemma tracked_respected {A} (m : M A) :
  (forall R : world -> world -> Prop,
      (forall w, R w w) ->
      (forall a b c, R a b -> R b c -> R a c) ->
      (forall lvl fmt args w, R w (snd (logging lvl fmt args w))) ->
      (forall s w, s <> "" -> R w (snd (emit (Match s) w))) ->
      (forall path w, In path concrete_endpoints ->
                      R w (snd (emit (Send path) w))) ->
      (forall path w, In path concrete_endpoints ->
                      R w (snd (blocking
                                  (Get (url_of (esp32_ip w) path) DEFAULT_TIMEOUT)
                                  w))) ->
      (forall ev w, waiting ev -> R w (snd (blocking ev w))) ->
      respects R m) ->
  respects tracked m.
Proof.
  intros H. apply (H tracked tracked_refl tracked_trans).
  - intros. apply tracked_emit.
  - intros. apply tracked_emit.
  - intros. apply tracked_emit.
  - intros. apply tracked_blocking.
  - intros. apply tracked_blocking.
Qed.

Lemma tracked_cycle (pause : Q) (w : world) : tracked w (snd (cycle pause w)).
Proof.
  apply (tracked_respected (cycle pause)). intros. now apply respects_cycle.
Qed.

Lemma tracked_adjust_ambient (duration : Q) (w : world) :
  tracked w (snd (adjust_ambient duration w)).
Proof.
  apply (tracked_respected (adjust_ambient duration)). intros.
  now apply respects_adjust_ambient.
Qed.



(** X13. Whatever is heard and whatever the device answers, every
    request a run makes goes to [http://<host>/<endpoint>] for the
    controller's own host and one of the eight single-device endpoints,
    with the timeout [DEFAULT_TIMEOUT]; and the dispatcher is called on
    those endpoints only. *)
Theorem X13_requests_in_order :
  forall fuel ambient pause w,
    exists evs,
      trace (snd (run fuel ambient pause w)) = evs ++ trace w
      /\ Forall (proper (esp32_ip w)) evs
      /\ (forall url timeout,
            In (Get url timeout) evs ->
            timeout = DEFAULT_TIMEOUT
            /\ exists path,
                 In path concrete_endpoints
                 /\ url = ("http://" ++ esp32_ip w ++ "/" ++ path)%string).
Proof.
  intros fuel ambient pause w.
  destruct (orderly_run fuel ambient pause w) as (_ & evs & T & HP).
  exists evs. split; [exact T |]. split; [exact HP |].
  intros url timeout Hin. rewrite Forall_forall in HP.
  exact (HP _ Hin).
Qed.

End StepwiseInstances.

(* ------------------------------------------------------------------ *)
(** ** What listening and sending do in each case                        *)
(* ------------------------------------------------------------------ *)

Section CallExtras.

Ltac run_all :=
  unfold listen_once, recognize, recognize_google, send_command, session_get,
    raise_for_status, adjust_ambient, sleep, blocking, try_except, bind,
    emit, tick, ask, stop, logging, emit, set_running, ret, raise;
  simpl.

Lemma lower_str_idem (s : string) : lower_str (lower_str s) = lower_str s.
Proof. unfold lower_str. now rewrite str_unstr, lower_idem. Qed.

Lemma listen_once_cases :
  forall w,
    clock (snd (listen_once w)) = S (S (clock w))
    /\ match heard (outside w) (S (clock w)) with
       | inr text =>
           fst (listen_once w) = inr (Some (lower_str text))
           /\ lower_str (lower_str text) = lower_str text
           /\ exists rest,
                trace (snd (listen_once w))
                = Log INFO "Heard: %s" [AStr text] :: rest
       | inl UnknownValueError =>
           fst (listen_once w) = inr None
           /\ exists rest,
                trace (snd (listen_once w))
                = Log DEBUG "Couldn't understand that" [] :: rest
       | inl (RecognizerRequestError detail) =>
           fst (listen_once w) = inr None
           /\ exists rest,
                trace (snd (listen_once w))
                = Log ERROR "Speech recognition service error: %s"
                    [AExn (RecognizerRequestError detail)] :: rest
       | inl exc => fst (listen_once w) = inl exc
       end.
Proof.
  intros w. run_all.
  destruct (sigint (outside w) (clock w)); simpl;
    destruct (sigint (outside w) (S (clock w))); simpl;
    destruct (heard (outside w) (S (clock w))) as [[] | text]; simpl;
    repeat split; eauto using lower_str_idem.
Qed.

(** X8. [listen_once] makes two blocking calls and answers by the
    outcome of the recognition: the lowercased text when there is one
    (lowercasing it again changes nothing); [None] after a debug line
    when the speech was not understood; [None] after an error line when
    the service failed; any other exception is passed on. *)
Theorem X8_listen_once_outcomes :
  forall w,
    clock (snd (listen_once w)) = S (S (clock w))
    /\ match heard (outside w) (S (clock w)) with
       | inr text =>
           fst (listen_once w) = inr (Some (lower_str text))
           /\ lower_str (lower_str text) = lower_str text
           /\ exists rest,
                trace (snd (listen_once w))
                = Log INFO "Heard: %s" [AStr text] :: rest
       | inl UnknownValueError =>
           fst (listen_once w) = inr None
           /\ exists rest,
                trace (snd (listen_once w))
                = Log DEBUG "Couldn't understand that" [] :: rest
       | inl (RecognizerRequestError detail) =>
           fst (listen_once w) = inr None
           /\ exists rest,
                trace (snd (listen_once w))
                = Log ERROR "Speech recognition service error: %s"
                    [AExn (RecognizerRequestError detail)] :: rest
       | inl exc => fst (listen_once w) = inl exc
       end.
Proof. exact listen_once_cases. Qed.


Lemma send_command_raises :
  forall path w exc,
    replies (outside w) (clock w) = inl exc ->
    is_RequestException exc = false ->
    exists w' evs,
      send_command path w = (inl exc, w')
      /\ trace w' = evs ++ trace w
      /\ gets (rev evs) = [url_of (esp32_ip w) path]
      /\ Forall not_warning evs.
Proof.
  intros path w exc Hr Hexc. run_all.
  destruct (sigint (outside w) (clock w)); simpl; rewrite Hr; simpl;
    rewrite Hexc; simpl.
  - eexists _, [_; _; _; _; _]. repeat split.
    repeat constructor; intros fmt args; discriminate.
  - eexists _, [_; _; _]. repeat split.
    repeat constructor; intros fmt args; discriminate.
Qed.

(** X7. [send_command] catches [RequestException]s only: when
    [session.get] raises anything else, the exception leaves
    [send_command] as it came, after the one request and with no
    warning logged. *)
Theorem X7_send_command_passes_on :
  forall path w exc,
    replies (outside w) (clock w) = inl exc ->
    is_RequestException exc = false ->
    exists w' evs,
      send_command path w = (inl exc, w')
      /\ trace w' = evs ++ trace w
      /\ gets (rev evs) = [url_of (esp32_ip w) path]
      /\ Forall not_warning evs.
Proof. exact send_command_raises. Qed.

Lemma X7_send_command_passes_on_witness :
  exists w',
    send_command "fan/on" (init DEFAULT_ESP32_IP broken_env)
    = (inl (OtherError "unforeseen"), w').
Proof.
  destruct (X7_send_command_passes_on "fan/on" (init DEFAULT_ESP32_IP broken_env)
              (OtherError "unforeseen") eq_refl eq_refl)
    as (w' & evs & E & _).
  exists w'. exact E.
Defined.



Lemma cycle_outside (pause : Q) (w : world) :
  outside (snd (cycle pause w)) = outside w.
Proof. apply (tracked_cycle pause w). Qed.


Lemma send_command_cases (path : string) (w : world) :
  exists r w' evs,
    send_command path w = (r, w')
    /\ trace w' = evs ++ trace w
    /\ gets (rev evs) = ["http://" ++ esp32_ip w ++ "/" ++ path]%string
    /\ (forall status,
          replies (outside w) (clock w) = inr status ->
          ~ error_status status ->
          r = inr true /\ Forall not_warning evs)
    /\ (forall status,
          replies (outside w) (clock w) = inr status ->
          error_status status ->
          r = inr false
          /\ In (Log WARNING "Failed to send command %s: %s"
                   [AStr path; AExn (HTTPError status)]) evs)
    /\ (forall exc,
          replies (outside w) (clock w) = inl exc ->
          is_RequestException exc = true ->
          r = inr false
          /\ In (Log WARNING "Failed to send command %s: %s"
                   [AStr path; AExn exc]) evs)
    /\ (forall exc,
          replies (outside w) (clock w) = inl exc ->
          is_RequestException exc = false ->
          r = inl exc /\ Forall not_warning evs).
Proof.
  run_all.
  destruct (replies (outside w) (clock w)) as [exc | status] eqn:R.
  - destruct (is_RequestException exc) eqn:Hexc;
      destruct (sigint (outside w) (clock w)); simpl; rewrite R; simpl;
      rewrite Hexc; simpl;
      [eexists _, _, [_; _; _; _; _; _] | eexists _, _, [_; _; _; _]
       | eexists _, _, [_; _; _; _; _] | eexists _, _, [_; _; _]];
      repeat split; try discriminate;
      repeat match goal with
             | H : inl _ = inl _ |- _ => injection H as H; subst
             end;
      try congruence; try (simpl; auto; fail);
      repeat constructor; intros fmt args; discriminate.
  - destruct ((400 <=? status) && (status <? 600))%Z eqn:T;
      [pose proof (proj1 (error_status_test status) T) as Hstatus
      | assert (Hstatus : ~ error_status status)
          by (rewrite <- error_status_test; congruence)];
      destruct (sigint (outside w) (clock w)); simpl; rewrite R; simpl;
      rewrite T; simpl;
      [eexists _, _, [_; _; _; _; _; _] | eexists _, _, [_; _; _; _]
       | eexists _, _, [_; _; _; _; _; _] | eexists _, _, [_; _; _; _]];
      repeat split; try discriminate;
      repeat match goal with
             | H : inr _ = inr _ |- _ => injection H as H; subst
             end;
      try contradiction; try (simpl; auto; fail);
      repeat constructor; intros fmt args; discriminate.
Qed.

(** C5, as the code has it. [send_command path] makes one GET, to
    [http://<host>/<path>]. It returns true exactly when a response
    came whose status [raise_for_status] does not raise on, so for
    every 2xx and 3xx. On an error status and on a
    [RequestException] of the transport it logs a warning and returns
    false. An exception of any other class is not caught: it reaches
    the caller, and no warning is logged. *)
Theorem C5_send_command :
  forall path w,
    exists r w' evs,
      send_command path w = (r, w')
      /\ trace w' = evs ++ trace w
      /\ gets (rev evs) = ["http://" ++ esp32_ip w ++ "/" ++ path]%string
      /\ (r = inr true <-> exists status,
             replies (outside w) (clock w) = inr status
             /\ ~ error_status status)
      /\ (forall status,
             replies (outside w) (clock w) = inr status ->
             (200 <= status < 400)%Z -> r = inr true)
      /\ (forall status,
             replies (outside w) (clock w) = inr status ->
             error_status status ->
             r = inr false
             /\ In (Log WARNING "Failed to send command %s: %s"
                      [AStr path; AExn (HTTPError status)]) evs)
      /\ (forall exc,
             replies (outside w) (clock w) = inl exc ->
             is_RequestException exc = true ->
             r = inr false
             /\ In (Log WARNING "Failed to send command %s: %s"
                      [AStr path; AExn exc]) evs)
      /\ (forall exc,
             replies (outside w) (clock w) = inl exc ->
             is_RequestException exc = false ->
             r = inl exc /\ Forall not_warning evs).
Proof.
  intros path w.
  destruct (send_command_cases path w)
    as (r & w' & evs & E & T & G & Hok & Herr & Hreq & Hother).
  exists r, w', evs.
  split; [exact E |]. split; [exact T |]. split; [exact G |].
  split; [| split; [| split; [exact Herr | split; [exact Hreq | exact Hother]]]].
  - split.
    + intros Hr.
      destruct (replies (outside w) (clock w)) as [exc | status] eqn:R.
      * destruct (is_RequestException exc) eqn:Hexc.
        -- destruct (Hreq exc eq_refl Hexc) as [Hf _]. congruence.
        -- destruct (Hother exc eq_refl Hexc) as [Hf _]. congruence.
      * exists status. split; [reflexivity |]. intros Hbad.
        destruct (Herr status eq_refl Hbad) as [Hf _]. congruence.
    + intros (status & R & Hgood). now destruct (Hok status R Hgood).
  - intros status R Hrange.
    apply (Hok status R). unfold error_status. lia.
Qed.

Lemma C5_send_command_witness :
  fst (send_command "led/on"
         (snd (listen_once (init DEFAULT_ESP32_IP sample_env))))
  = inr false.
Proof.
  destruct (C5_send_command "led/on"
              (snd (listen_once (init DEFAULT_ESP32_IP sample_env))))
    as (r & w' & evs & E & _ & _ & _ & _ & _ & Hreq & _).
  destruct (Hreq (Timeout "timed out") eq_refl eq_refl) as [Hr _].
  rewrite E. exact Hr.
Defined.

(** C5 as worded fails: [send_command] does raise to its caller, when
    the transport raises an exception that is no
    [RequestException]. *)
Lemma C5_counterexample :
  ~ (forall path w, exists b w', send_command path w = (inr b, w')).
Proof.
  intros H.
  destruct (H "fan/on" (init DEFAULT_ESP32_IP broken_env)) as (b & w' & E).
  destruct (send_command_raises "fan/on" (init DEFAULT_ESP32_IP broken_env)
              (OtherError "unforeseen") eq_refl eq_refl)
    as (w'' & evs & E' & _).
  rewrite E' in E. discriminate E.
Qed.

End CallExtras.

(* ------------------------------------------------------------------ *)
(** ** More about the loop                                               *)
(* ------------------------------------------------------------------ *)

Section LoopExtras.

(** [run] is the loop started from the world the calibration leaves. *)
Lemma run_unfold (fuel : nat) (ambient pause : Q) (w : world) :
  exists w0 added,
    run fuel ambient pause w = loop fuel pause w0
    /\ trace w0
       = Log INFO "Ready - speak a command (Ctrl-C to exit)" []
           :: added
           ++ [Calibrate ambient;
               Log INFO "Calibrating microphone (%.1fs)..." [ASecs ambient];
               Log INFO "Starting voice controller (ESP32=%s)"
                 [AStr (esp32_ip w)]]
           ++ trace w
    /\ (added = [] /\ running w0 = running w
        \/ added = [Log INFO "Shutting down" []; Interrupt]
           /\ running w0 = false)
    /\ tracked w w0
    /\ clock w0 = S (clock w).
Proof.
  unfold run, adjust_ambient, blocking, bind, emit, tick, ask, stop, logging,
    emit, set_running, ret.
  simpl. destruct (sigint (outside w) (clock w)) eqn:E; simpl.
  - eexists _, [_; _]. split; [reflexivity |]. split; [reflexivity |].
    split; [right; split; reflexivity |]. split; [| reflexivity].
    repeat split; simpl; auto.
  - eexists _, []. split; [reflexivity |]. split; [reflexivity |].
    split; [left; split; reflexivity |]. split; [| reflexivity].
    repeat split; simpl; auto.
    intros n Hn Hs. assert (n = clock w) by lia. subst n. congruence.
Qed.



Lemma loop_left_down (pause : Q) (fuel : nat) :
  forall w w', loop fuel pause w = (inr true, w') -> running w' = false.
Proof.
  induction fuel as [|fuel IH]; intros w w' E; [discriminate |].
  rewrite loop_step in E. destruct (running w) eqn:Hw.
  - destruct (cycle pause w) as [[e | u] w1]; [discriminate |].
    now apply (IH w1).
  - now injection E as <-.
Qed.

Lemma session_env_polite : polite session_env.
Proof. intros n exc H. discriminate H. Qed.





(** X12. [run] returns only once the flag is down: whatever the
    outside does, a run that comes back leaves [running] false. *)
Theorem X12_run_returns_stopped :
  forall fuel ambient pause w w',
    run fuel ambient pause w = (inr true, w') -> running w' = false.
Proof.
  intros fuel ambient pause w w' E.
  destruct (run_unfold fuel ambient pause w) as (w0 & added & Hrun & _).
  rewrite Hrun in E. exact (loop_left_down pause fuel w0 w' E).
Qed.

Lemma X12_run_returns_stopped_witness :
  running (snd (run 6 DEFAULT_AMBIENT_DURATION DEFAULT_PAUSE
                  (init DEFAULT_ESP32_IP session_env))) = false.
Proof.
  apply (X12_run_returns_stopped 6 DEFAULT_AMBIENT_DURATION DEFAULT_PAUSE
           (init DEFAULT_ESP32_IP session_env)).
  vm_compute. reflexivity.
Defined.



(** X15. Every run calibrates exactly once, for the duration it was
    given, before anything else but its first two log lines: the
    events it adds are, oldest first, the line [Starting voice
    controller], the line [Calibrating microphone], the calibration,
    and then events none of which is a calibration. *)
Theorem X15_calibrates_once :
  forall fuel ambient pause w,
    exists rest,
      trace (snd (run fuel ambient pause w))
      = rest
          ++ [Calibrate ambient;
              Log INFO "Calibrating microphone (%.1fs)..." [ASecs ambient];
              Log INFO "Starting voice controller (ESP32=%s)"
                [AStr (esp32_ip w)]]
          ++ trace w
      /\ Forall not_calibrate rest.
Proof.
  intros fuel ambient pause w.
  destruct (run_unfold fuel ambient pause w)
    as (w0 & added & -> & T & Hadded & _).
  assert (H : keeps not_calibrate (loop fuel pause)).
  { apply keeps_loop.
    - split; intros; intros d; discriminate.
    - repeat split; intros; intros d; discriminate.
    - split; intros d; discriminate. }
  destruct (H w0) as (_ & _ & _ & _ & evs & T' & HP & _).
  exists (evs ++ Log INFO "Ready - speak a command (Ctrl-C to exit)" [] :: added).
  split.
  - rewrite T', T. now rewrite <- app_assoc.
  - apply Forall_app. split; [exact HP |].
    constructor; [intros d; discriminate |].
    destruct Hadded as [[-> _] | [-> _]]; repeat constructor; intros d; discriminate.
Qed.

End LoopExtras.

(* ------------------------------------------------------------------ *)
(** ** Single commands, the entry point, what gets printed              *)
(* ------------------------------------------------------------------ *)

Section EntryExtras.

Lemma endpoint_not_empty (s endpoint : string) :
  _match_command s = Some endpoint -> falsy (Some endpoint) = false.
Proof.
  intros H. pose proof (match_text_range (str s)) as Hr.
  fold (_match_command s) in Hr. rewrite H in Hr.
  apply falsy_some. intros ->. simpl in Hr. intuition discriminate.
Qed.

(** X9. When the matcher answers the endpoint of a single device,
    the pass calls the dispatcher once, on that endpoint, and does not
    sleep; when the matcher answers [None], the pass ends right after
    the call of the matcher: no dispatch, no sleep. *)
Theorem X9_single_and_unknown :
  forall pause w s w1,
    polite (outside w) ->
    listen_once w = (inr (Some s), w1) ->
    s <> "" ->
    (forall endpoint,
        _match_command s = Some endpoint ->
        endpoint <> "all/on" -> endpoint <> "all/off" ->
        exists w2 evs,
          cycle pause w = (inr tt, w2)
          /\ trace w2 = evs ++ trace w1
          /\ calls (rev evs) = [Send endpoint])
    /\ (_match_command s = None ->
        cycle pause w = (inr tt, snd (emit (Match s) w1))).
Proof.
  intros pause w s w1 Hpolite Hlisten Hs.
  rewrite (cycle_after_listen pause w w1 _ Hlisten). unfold act.
  rewrite (falsy_some s Hs). split.
  - intros endpoint Hm Hon Hoff.
    rewrite Hm, (endpoint_not_empty s endpoint Hm), (dispatch_single _ Hon Hoff).
    assert (Hpolite1 : polite (outside (snd (emit (Match s) w1)))).
    { simpl. now rewrite (listen_once_outside w w1 _ Hlisten). }
    destruct (send_command_outcome endpoint _ Hpolite1)
      as (b & w2 & evs & E & T & C & _).
    exists w2, (evs ++ [Match s]).
    change ((emit (Match s) ;; send_command endpoint ;; ret tt) w1)
      with (match send_command endpoint (snd (emit (Match s) w1)) with
            | (inl e, w') => (inl e, w')
            | (inr _, w') => (@inr exn unit tt, w')
            end).
    rewrite E. split; [reflexivity |]. split.
    + rewrite T. simpl. now rewrite <- app_assoc.
    + unfold calls in *. rewrite rev_app_distr, filter_app, C. reflexivity.
  - intros Hm. rewrite Hm. reflexivity.
Qed.

Lemma X9_single_and_unknown_witness :
  exists w2 evs,
    cycle DEFAULT_PAUSE
      (snd (adjust_ambient DEFAULT_AMBIENT_DURATION
              (init DEFAULT_ESP32_IP session_env)))
    = (inr tt, w2)
    /\ calls (rev evs) = [Send "light/on"].
Proof.
  assert (Hlisten :
            listen_once (snd (adjust_ambient DEFAULT_AMBIENT_DURATION
                                (init DEFAULT_ESP32_IP session_env)))
            = (inr (Some "light on"),
               snd (listen_once (snd (adjust_ambient DEFAULT_AMBIENT_DURATION
                                        (init DEFAULT_ESP32_IP session_env))))))
    by (vm_compute; reflexivity).
  destruct (X9_single_and_unknown DEFAULT_PAUSE
              (snd (adjust_ambient DEFAULT_AMBIENT_DURATION
                      (init DEFAULT_ESP32_IP session_env)))
              "light on"
              (snd (listen_once (snd (adjust_ambient DEFAULT_AMBIENT_DURATION
                                        (init DEFAULT_ESP32_IP session_env)))))
              session_env_polite Hlisten) as [H _]; [discriminate |].
  destruct (H "light/on" eq_refl) as (w2 & evs & E & _ & C); try discriminate.
  exists w2, evs. split; [exact E | exact C].
Defined.

Lemma dispatch_raises (endpoint : string) (w : world) (exc : exn) :
  replies (outside w) (clock w) = inl exc ->
  is_RequestException exc = false ->
  exists w', dispatch endpoint w = (inl exc, w').
Proof.
  intros Hr Hexc. unfold dispatch.
  destruct (String.eqb_spec endpoint "all/on") as [-> | Hon].
  - destruct (send_command_raises "led/on"
                (snd (logging INFO "Activating all devices" [] w)) exc Hr Hexc)
      as (w' & evs & E & _).
    exists w'.
    change ((logging INFO "Activating all devices" [] ;; send_each all_on_members) w)
      with (bind (send_command "led/on")
                 (fun _ => sleep (1 # 10) ;; send_each (tl all_on_members))
                 (snd (logging INFO "Activating all devices" [] w))).
    unfold bind at 1. now rewrite E.
  - destruct (String.eqb_spec endpoint "all/off") as [-> | Hoff].
    + destruct (send_command_raises "led/off"
                  (snd (logging INFO "Deactivating all devices" [] w)) exc Hr Hexc)
        as (w' & evs & E & _).
      exists w'.
      change ((logging INFO "Deactivating all devices" [] ;; send_each all_off_members) w)
        with (bind (send_command "led/off")
                   (fun _ => sleep (1 # 10) ;; send_each (tl all_off_members))
                   (snd (logging INFO "Deactivating all devices" [] w))).
      unfold bind at 1. now rewrite E.
    + destruct (send_command_raises endpoint w exc Hr Hexc) as (w' & evs & E & _).
      exists w'. unfold bind. now rewrite E.
Qed.

Lemma listen_once_heard (w : world) (u : string) :
  heard (outside w) (S (clock w)) = inr u ->
  exists w1,
    listen_once w = (inr (Some (lower_str u)), w1)
    /\ clock w1 = S (S (clock w))
    /\ outside w1 = outside w.
Proof.
  intros H. pose proof (listen_once_cases w) as [Hclk Hcase].
  rewrite H in Hcase. destruct Hcase as (Hfst & _).
  pose proof (listen_once_outside w (snd (listen_once w)) (fst (listen_once w)))
    as Hout.
  destruct (listen_once w) as [r w1]; simpl in *. subst r.
  exists w1. split; [reflexivity |]. split; [exact Hclk | now apply Hout].
Qed.

Lemma cycle_raises (pause : Q) (w : world) (u endpoint : string) (exc : exn) :
  heard (outside w) (S (clock w)) = inr u ->
  _match_command (lower_str u) = Some endpoint ->
  replies (outside w) (S (S (clock w))) = inl exc ->
  is_RequestException exc = false ->
  exists w', cycle pause w = (inl exc, w').
Proof.
  intros Hh Hm Hr Hexc.
  destruct (listen_once_heard w u Hh) as (w1 & E & Hclk & Hout).
  rewrite (cycle_after_listen pause w w1 _ E). unfold act.
  assert (Hs : lower_str u <> "").
  { intros Hnil. rewrite Hnil in Hm. discriminate Hm. }
  rewrite (falsy_some _ Hs), Hm, (endpoint_not_empty _ _ Hm).
  destruct (dispatch_raises endpoint (snd (emit (Match (lower_str u)) w1)) exc)
    as (w' & E'); [simpl; now rewrite Hout, Hclk | exact Hexc |].
  exists w'. exact E'.
Qed.

Lemma run_unfold_calm (fuel : nat) (ambient pause : Q) (w : world) :
  sigint (outside w) (clock w) = false ->
  exists w0,
    run fuel ambient pause w = loop fuel pause w0
    /\ running w0 = running w
    /\ clock w0 = S (clock w)
    /\ outside w0 = outside w.
Proof.
  intros H.
  unfold run, adjust_ambient, blocking, bind, emit, tick, ask, stop, logging,
    emit, set_running, ret.
  simpl. rewrite H. simpl. eexists. repeat split.
Qed.

(** X17. When the first utterance is a command and the first request
    fails with an exception that is no [RequestException], the
    exception leaves the loop and [main] returns 2, its last act being
    the error line [Unexpected error] with that exception. *)
Theorem X17_main_returns_two :
  forall fuel args e u endpoint exc,
    sigint e 0 = false ->
    heard e 2 = inr u ->
    _match_command (lower_str u) = Some endpoint ->
    replies e 3 = inl exc ->
    is_RequestException exc = false ->
    exit_code (main (S fuel) args e) = Some 2%Z
    /\ exists rest,
         trace (final (main (S fuel) args e))
         = Log ERROR "Unexpected error" [AExn exc] :: rest.
Proof.
  intros fuel args e u endpoint exc Hs Hh Hm Hr Hexc. unfold main.
  destruct (run_unfold_calm (S fuel) (ambient args) DEFAULT_PAUSE
              (init (ip args) e) Hs) as (w0 & -> & Hup & Hclk & Hout).
  simpl in Hup, Hclk, Hout.
  rewrite loop_step, Hup.
  destruct (cycle_raises DEFAULT_PAUSE w0 u endpoint exc) as (w' & E);
    rewrite ?Hout, ?Hclk; auto.
  rewrite E. simpl. split; [reflexivity |]. eexists. reflexivity.
Qed.

Lemma X17_main_returns_two_witness :
  exit_code (main 1 {| ip := DEFAULT_ESP32_IP;
                       ambient := DEFAULT_AMBIENT_DURATION;
                       verbose := true |} broken_env) = Some 2%Z.
Proof.
  destruct (X17_main_returns_two 0
              {| ip := DEFAULT_ESP32_IP; ambient := DEFAULT_AMBIENT_DURATION;
                 verbose := true |} broken_env
              "Fan ON" "fan/on" (OtherError "unforeseen")
              eq_refl eq_refl eq_refl eq_refl eq_refl) as [E _].
  exact E.
Defined.

Lemma printed_in (threshold : level) (evs : list event)
      (lvl : level) (fmt : string) (args : list arg) :
  In (Log lvl fmt args) evs ->
  severity threshold <= severity lvl ->
  In (Log lvl fmt args) (printed threshold evs).
Proof.
  intros Hin Hle. unfold printed. apply filter_In. split; [exact Hin |].
  now apply Nat.leb_le.
Qed.

(** X18. What reaches the log depends on [--verbose] for debug lines
    only. Whatever the verbosity, the warning of a failed
    [send_command] is printed. Without [--verbose], a pass in which the
    speech is not understood and no SIGINT arrives prints nothing,
    its one line being a debug line, which [--verbose] shows. *)
Theorem X18_what_is_printed :
  (forall flag path w,
      polite (outside w) ->
      fst (send_command path w) = inr false ->
      exists evs exc,
        trace (snd (send_command path w)) = evs ++ trace w
        /\ In (Log WARNING "Failed to send command %s: %s"
                 [AStr path; AExn exc])
              (printed (setup_logging flag) evs))
  /\ (forall pause w,
        heard (outside w) (S (clock w)) = inl UnknownValueError ->
        sigint (outside w) (clock w) = false ->
        sigint (outside w) (S (clock w)) = false ->
        sigint (outside w) (S (S (clock w))) = false ->
        exists evs,
          trace (snd (cycle pause w)) = evs ++ trace w
          /\ printed (setup_logging false) evs = []
          /\ printed (setup_logging true) evs
             = [Log DEBUG "Couldn't understand that" []]).
Proof.
  split.
  - intros flag path w Hpolite Hfalse.
    destruct (send_command_outcome path w Hpolite)
      as (b & w' & evs & E & T & _ & _ & _ & _ & Hwarn).
    rewrite E in *. simpl in Hfalse. injection Hfalse as ->.
    destruct (Hwarn eq_refl) as (exc & _ & Hin).
    exists evs, exc. split; [exact T |].
    apply printed_in; [exact Hin |]. destruct flag; simpl; lia.
  - intros pause w Hh H0 H1 H2.
    unfold cycle, act, listen_once, recognize, recognize_google, sleep, blocking,
      try_except, bind, emit, tick, ask, stop, logging, emit, set_running,
      ret, raise.
    simpl. rewrite H0. simpl. rewrite H1. simpl. rewrite Hh. simpl.
    rewrite H2. simpl.
    exists [Sleep pause; Log DEBUG "Couldn't understand that" []; Recognize; Listen].
    repeat split.
Qed.

Lemma X18_what_is_printed_witness :
  exists evs,
    trace (snd (cycle DEFAULT_PAUSE (init DEFAULT_ESP32_IP silent_env))) = evs
    /\ printed (setup_logging false) evs = [].
Proof.
  destruct X18_what_is_printed as [_ H].
  destruct (H DEFAULT_PAUSE (init DEFAULT_ESP32_IP silent_env)
              eq_refl eq_refl eq_refl eq_refl) as (evs & T & P & _).
  exists evs. split; [| exact P].
  rewrite T. apply app_nil_r.
Defined.

End EntryExtras.
